(** * A shallow embedding of the hash table engine of c_hash_table

    Source: src/src/hash_table.c and src/src/hash_table.h.

    Modelling choices.
    - [size_t] quantities (capacity, size, indices, iteration counters) are
      [nat]; the FNV-1a hash is computed on [N] with its 64-bit wrap-around
      written out.
    - The three parallel arrays [keys], [key_sizes] and [values] are one
      array of slots: [keys[i] == NULL] is the slot [None]; an occupied slot
      holds the copied key bytes (its length is [key_sizes[i]]) and the value
      pointer.  A key handed to the API is the list of the [key_size] bytes
      its pointer designates, [None] being the NULL key pointer.
    - Pointers to values are [N], [NULL] is [0].
    - The two [float] parameters are rationals ([Q]) standing for finite
      binary32 values.  The float arithmetic of lines 174-175 is IEEE 754
      single precision with [FLT_EVAL_METHOD == 0]: each conversion and each
      operation rounds its exact result to the nearest binary32 value, ties
      to even ([round32]).  A float division by zero gives +inf, which is
      greater than every (finite) threshold.  [size_t] is 64 bits wide: the
      conversion of a float to [size_t] truncates toward zero and is
      undefined when the truncated value is not in [0, 2^64).
    - Undefined behaviour (a modulus by zero, a NULL dereference) is the
      outcome [Undefined] of a small error monad.
    - Allocation results come from an oracle: a list of booleans consumed
      in call order ([false] = the allocator returned NULL); once the list
      is exhausted every allocation succeeds.
    - Value releases (the custom destructor, or [free]) and key frees are
      recorded as a list of events. *)

From Stdlib Require Import QArith Qpower Qround Lqa Strings.Byte.
From stdpp Require Import base list.

(** ** The error monad for undefined behaviour *)

Inductive outcome (A : Type) : Type :=
| Done (a : A)
| Undefined.
Arguments Done {A} a.
Arguments Undefined {A}.

Definition obind {A B : Type} (m : outcome A) (k : A -> outcome B) : outcome B :=
  match m with
  | Done a => k a
  | Undefined => Undefined
  end.

Notation "'let*' x := m 'in' k" := (obind m (fun x => k))
  (at level 200, x name, m at level 100, k at level 200).
Notation "'let*' ' p := m 'in' k" := (obind m (fun x => match x with p => k end))
  (at level 200, p pattern, m at level 100, k at level 200).

(** [a % b] on [size_t]: undefined when [b = 0]. *)
Definition mod_size (a : N) (b : nat) : outcome nat :=
  match b with
  | O => Undefined
  | S _ => Done (N.to_nat (N.modulo a (N.of_nat b)))
  end.

(** ** Data *)

Definition bytes := list Byte.byte.
Abbreviation ptr := N.
Definition NULL : ptr := 0%N.

Record entry := mk_entry {
  e_key : bytes;   (** keys[i], a copy of key_sizes[i] bytes *)
  e_value : ptr    (** values[i] *)
}.

Definition slot := option entry.

Record hash_table := mk_table {
  capacity : nat;
  slots : list slot;
  size : nat;
  resize_threshold : Q;
  resize_factor : Q;
  value_destructor : bool  (** true when a custom destructor is configured *)
}.

Definition set_slots (t : hash_table) (s : list slot) : hash_table :=
  mk_table (capacity t) s (size t) (resize_threshold t) (resize_factor t)
    (value_destructor t).
Definition set_slots_size (t : hash_table) (s : list slot) (n : nat) : hash_table :=
  mk_table (capacity t) s n (resize_threshold t) (resize_factor t)
    (value_destructor t).

(** What the code does to memory that the caller can observe. *)
Inductive event :=
| FreeKey (k : bytes)
| ReleaseValue (p : ptr) (custom : bool).
  (** [custom = true]: the table's destructor was called; otherwise [free]. *)

(** ** Allocation oracle *)

Definition alloc_oracle := list bool.

Definition alloc (o : alloc_oracle) : bool * alloc_oracle :=
  match o with
  | [] => (true, [])
  | b :: o' => (b, o')
  end.

(** ** FNV-1a (hash_table_fnv_1a), on a 64-bit size_t *)

Definition size_t_modulus : N := 2 ^ 64.
Definition fnv_prime : N := 16777619.      (* 0x1000193 *)
Definition fnv_offset : N := 2166136261.   (* 0x811C9DC5 *)

Definition fnv_step (hash : N) (b : Byte.byte) : N :=
  N.modulo (N.lxor hash (Byte.to_N b) * fnv_prime) size_t_modulus.

Definition hash_table_fnv_1a (key : bytes) : N :=
  fold_left fnv_step key fnv_offset.

(** ** Key comparison: key_sizes[i] == key_size && memcmp(...) == 0 *)

Fixpoint memcmp_eq (a b : bytes) : bool :=
  match a, b with
  | [], [] => true
  | x :: a', y :: b' => Byte.eqb x y && memcmp_eq a' b'
  | _, _ => false
  end.

Definition key_matches (e : entry) (key : bytes) : bool :=
  Nat.eqb (length (e_key e)) (length key) && memcmp_eq (e_key e) key.

(** ** The probe loop shared by get, insert and remove

    The loop of lines 100-108 (get), 184-200 (insert), 223-241 (remove):
<<
    while (table->keys[index] != NULL && iterations < table->capacity) {
        if (key_sizes[index] == key_size && memcmp(...) == 0) <found>
        index = (index + 1) % table->capacity;
        iterations++;
    }
>>
    [remaining] is [capacity - iterations]: the test [iterations < capacity]
    is [remaining <> 0].  The result records where the loop stopped and the
    final value of [iterations]. *)

Inductive probe_result :=
| Found (index : nat) (e : entry) (iterations : nat)
| Stopped (index : nat) (iterations : nat).

Fixpoint probe (s : list slot) (cap : nat) (key : bytes)
    (index iterations remaining : nat) : probe_result :=
  match s !! index with
  | Some (Some e) =>
      match remaining with
      | O => Stopped index iterations
      | S remaining' =>
          if key_matches e key then Found index e iterations
          else probe s cap key (Nat.modulo (S index) cap) (S iterations) remaining'
      end
  | _ => Stopped index iterations
  end.

Definition probe_iterations (r : probe_result) : nat :=
  match r with
  | Found _ _ it => it
  | Stopped _ it => it
  end.

(** The loop entered at [hash(key) % capacity]. *)
Definition probe_key (t : hash_table) (key : bytes) : outcome probe_result :=
  let* index := mod_size (hash_table_fnv_1a key) (capacity t) in
  Done (probe (slots t) (capacity t) key index 0 (capacity t)).

(** ** hash_table_get, hash_table_contains *)

Definition hash_table_get (t : hash_table) (key : option bytes) : outcome ptr :=
  match key with
  | None => Done NULL
  | Some k =>
      let* r := probe_key t k in
      match r with
      | Found _ e _ => Done (e_value e)
      | Stopped _ _ => Done NULL
      end
  end.

Definition hash_table_contains (t : hash_table) (key : option bytes) : outcome nat :=
  match key with
  | None => Done 0
  | Some _ =>
      let* v := hash_table_get t key in
      Done (if N.eqb v NULL then 0 else 1)
  end.

(** ** hash_table_remove

    [size--] is [Nat.pred]: a slot was found occupied, so [size] counts it
    and the wrap-around of [0 - 1] on [size_t] is not reached. *)

Definition release (t : hash_table) (p : ptr) : event :=
  ReleaseValue p (value_destructor t).

Definition hash_table_remove (t : hash_table) (key : option bytes)
    : outcome (hash_table * list event) :=
  match key with
  | None => Done (t, [])
  | Some k =>
      let* r := probe_key t k in
      match r with
      | Found i e _ =>
          Done (set_slots_size t (<[i := None]> (slots t)) (Nat.pred (size t)),
                [FreeKey (e_key e); release t (e_value e)])
      | Stopped _ _ => Done (t, [])
      end
  end.

(** ** hash_table_resize (static) *)

(** The inner loop of the rehash (lines 150-153): the first free slot from
    [index] on, giving up after [capacity] steps. *)
Fixpoint find_free (s : list slot) (cap index remaining : nat) : nat :=
  match s !! index with
  | Some (Some _) =>
      match remaining with
      | O => index
      | S remaining' => find_free s cap (Nat.modulo (S index) cap) remaining'
      end
  | _ => index
  end.

(** The outer loop (lines 144-161) over the old slots, moving every entry
    into the new array [s] and counting them in [n]. *)
Fixpoint rehash (new_capacity : nat) (old : list slot) (s : list slot) (n : nat)
    : outcome (list slot * nat) :=
  match old with
  | [] => Done (s, n)
  | None :: old' => rehash new_capacity old' s n
  | Some e :: old' =>
      let* index := mod_size (hash_table_fnv_1a (e_key e)) new_capacity in
      let index := find_free s new_capacity index new_capacity in
      rehash new_capacity old' (<[index := Some e]> s) (S n)
  end.

(** Returns the status code, the table and what is left of the oracle. *)
Definition hash_table_resize (o : alloc_oracle) (t : hash_table) (new_capacity : nat)
    : outcome (nat * hash_table * alloc_oracle) :=
  if Nat.leb new_capacity (capacity t) then Done (1, t, o) else
  let '(keys_ok, o1) := alloc o in
  let '(key_sizes_ok, o2) := alloc o1 in
  let '(values_ok, o3) := alloc o2 in
  if negb (keys_ok && key_sizes_ok && values_ok) then Done (1, t, o3) else
  let* '(s, n) := rehash new_capacity (slots t) (replicate new_capacity None) 0 in
  Done (0, mk_table new_capacity s n (resize_threshold t) (resize_factor t)
             (value_destructor t), o3).

(** ** hash_table_insert *)

(** *** Single precision arithmetic *)

Section binary32.
Local Open Scope Q_scope.

(** [2^e] for an integer exponent [e]. *)
Definition pow2 (e : Z) : Q := (2 # 1) ^ e.

(** Rounding of a rational to an integer: to nearest, ties to even. *)
Definition rne (x : Q) : Z :=
  let f := Qfloor x in
  match Qcompare (x - inject_Z f) (1 # 2) with
  | Lt => f
  | Gt => (f + 1)%Z
  | Eq => if Z.even f then f else (f + 1)%Z
  end.

(** The binade [L] of a positive rational [x]: [2^L <= x < 2^(L+1)]. *)
Definition binade (x : Q) : Z :=
  let L0 := (Z.log2 (Qnum x) - Z.log2 (Zpos (Qden x)))%Z in
  if Qle_bool (pow2 L0) x then L0 else (L0 - 1)%Z.

(** Rounding to the nearest binary32 value, ties to even: the significand
    has 24 bits, so [x] in the binade [L] is rounded to a multiple of
    [2^(L-23)].  The exponent range is not bounded here; the values rounded
    below stay in the normal range of binary32 (between [2^-126] and
    [2^128]), except a product in [grow], where a value below 1 in absolute
    value truncates to 0 and an overflow to infinity is undefined in the
    conversion either way. *)
Definition round32 (x : Q) : Q :=
  match Qnum x with
  | Z0 => 0
  | Zpos _ =>
      let e := (binade x - 23)%Z in inject_Z (rne (x / pow2 e)) * pow2 e
  | Zneg _ =>
      let e := (binade (- x) - 23)%Z in - (inject_Z (rne (- x / pow2 e)) * pow2 e)
  end.

(** [(float)n] for a [size_t] value [n]. *)
Definition float_of_nat (n : nat) : Q := round32 (inject_Z (Z.of_nat n)).

End binary32.

(** [(float)n / capacity] in single precision: both operands converted to
    float, the quotient rounded to float. *)
Definition float_load (n capacity : nat) : Q :=
  round32 (float_of_nat n / float_of_nat capacity).

(** [(float)(size + 1) / capacity > resize_threshold] (line 174).  With
    [capacity == 0] the quotient is +inf. *)
Definition load_exceeds (size capacity : nat) (threshold : Q) : bool :=
  match capacity with
  | O => true
  | S _ => negb (Qle_bool (float_load (S size) capacity) threshold)
  end.

(** [(size_t)(capacity * resize_factor)] (line 175): [capacity] converted
    to float, the product rounded to float, then converted to [size_t]
    (undefined for a value [<= -1] or [>= 2^64]). *)
Definition grow (capacity : nat) (factor : Q) : outcome nat :=
  let p := round32 (float_of_nat capacity * factor) in
  if Qle_bool p (-1) then Undefined
  else if Qle_bool (inject_Z (2 ^ 64)) p then Undefined
  else Done (Z.to_nat (Qfloor p)).

Arguments round32 : simpl never.
Arguments float_load : simpl never.
Arguments grow : simpl never.

Definition hash_table_insert (o : alloc_oracle) (t : hash_table) (key : option bytes)
    (value : ptr) : outcome (nat * hash_table * list event) :=
  match key with
  | None => Done (1, t, [])
  | Some k =>
      let* '(rc, t1, o1) :=
        if load_exceeds (size t) (capacity t) (resize_threshold t)
        then (let* n := grow (capacity t) (resize_factor t) in hash_table_resize o t n)
        else Done (0, t, o) in
      if negb (Nat.eqb rc 0) then Done (1, t1, []) else
      let* r := probe_key t1 k in
      match r with
      | Found i e _ =>
          (* update in place: release the old value, store the new one *)
          Done (0, set_slots t1 (<[i := Some (mk_entry (e_key e) value)]> (slots t1)),
                [release t1 (e_value e)])
      | Stopped i _ =>
          (* malloc(key_size) for the key copy *)
          let '(key_ok, _) := alloc o1 in
          if negb key_ok then Done (1, t1, [])
          else Done (0, set_slots_size t1 (<[i := Some (mk_entry k value)]> (slots t1))
                                       (S (size t1)), [])
      end
  end.

(** ** Creation *)

(** The pointer a creation function hands back.  [NoTable] is NULL.  The
    code never checks its [calloc]s: when one of them returns NULL the table
    is returned anyway, with that array NULL ([CreatedWithNullArrays] says
    which of keys, key_sizes, values). *)
Inductive created :=
| NoTable
| Created (t : hash_table)
| CreatedWithNullArrays (capacity : nat) (keys_null key_sizes_null values_null : bool).

Definition hash_table_create_with_parameters_and_destructor (o : alloc_oracle)
    (capacity : nat) (resize_threshold resize_factor : Q) (destructor : bool)
    : outcome created :=
  let '(table_ok, o1) := alloc o in
  (* table->size = 0 writes through the unchecked result of malloc *)
  if negb table_ok then Undefined else
  let '(keys_ok, o2) := alloc o1 in
  let '(key_sizes_ok, o3) := alloc o2 in
  let '(values_ok, _) := alloc o3 in
  if keys_ok && key_sizes_ok && values_ok
  then Done (Created (mk_table capacity (replicate capacity None) 0
                        resize_threshold resize_factor destructor))
  else Done (CreatedWithNullArrays capacity (negb keys_ok) (negb key_sizes_ok)
                                    (negb values_ok)).

Definition HASH_TABLE_DEFAULT_INITIAL_CAPACITY : nat := 16.
Definition HASH_TABLE_DEFAULT_RESIZE_THRESHOLD : Q := 1 # 2.
Definition HASH_TABLE_DEFAULT_RESIZE_FACTOR : Q := 2.

Definition hash_table_create (o : alloc_oracle) : outcome created :=
  hash_table_create_with_parameters_and_destructor o
    HASH_TABLE_DEFAULT_INITIAL_CAPACITY HASH_TABLE_DEFAULT_RESIZE_THRESHOLD
    HASH_TABLE_DEFAULT_RESIZE_FACTOR false.

Definition hash_table_create_with_destructor (o : alloc_oracle) (destructor : bool)
    : outcome created :=
  hash_table_create_with_parameters_and_destructor o
    HASH_TABLE_DEFAULT_INITIAL_CAPACITY HASH_TABLE_DEFAULT_RESIZE_THRESHOLD
    HASH_TABLE_DEFAULT_RESIZE_FACTOR destructor.

Definition hash_table_create_with_parameters (o : alloc_oracle) (capacity : nat)
    (resize_threshold resize_factor : Q) : outcome created :=
  hash_table_create_with_parameters_and_destructor o capacity resize_threshold
    resize_factor false.

(** ** String key wrappers

    A C string is the memory its pointer designates, up to and including
    the terminating NUL. *)

Fixpoint strlen (s : bytes) : nat :=
  match s with
  | [] => 0
  | b :: s' => if Byte.eqb b Byte.x00 then 0 else S (strlen s')
  end.

(** The [strlen(key) + 1] bytes passed as the key. *)
Definition string_key (s : bytes) : bytes := firstn (S (strlen s)) s.

Definition hash_table_insert_string (o : alloc_oracle) (t : hash_table)
    (key : option bytes) (value : ptr) : outcome (nat * hash_table * list event) :=
  match key with
  | None => Done (1, t, [])
  | Some s => hash_table_insert o t (Some (string_key s)) value
  end.

Definition hash_table_get_string (t : hash_table) (key : option bytes) : outcome ptr :=
  match key with
  | None => Done NULL
  | Some s => hash_table_get t (Some (string_key s))
  end.

Definition hash_table_remove_string (t : hash_table) (key : option bytes)
    : outcome (hash_table * list event) :=
  match key with
  | None => Done (t, [])
  | Some s => hash_table_remove t (Some (string_key s))
  end.

Definition hash_table_contains_string (t : hash_table) (key : option bytes)
    : outcome nat :=
  match key with
  | None => Done 0
  | Some s => hash_table_contains t (Some (string_key s))
  end.

(** ** hash_table_clear, hash_table_destroy

    The loop [for (i = 0; i < capacity; i++)] of hash_table_clear visits the
    [capacity] slots of the array, i.e. the list [slots t]: for an occupied
    slot it frees the key, releases the value and marks the slot empty
    ([key_sizes[i]] is left as it was; an empty slot's size is never
    read).  Then [size] is set to 0. *)

Fixpoint clear_slots (custom : bool) (s : list slot) : list slot * list event :=
  match s with
  | [] => ([], [])
  | None :: s' =>
      let '(r, ev) := clear_slots custom s' in (None :: r, ev)
  | Some e :: s' =>
      let '(r, ev) := clear_slots custom s' in
      (None :: r, FreeKey (e_key e) :: ReleaseValue (e_value e) custom :: ev)
  end.

Definition hash_table_clear (t : hash_table) : hash_table * list event :=
  let '(s, ev) := clear_slots (value_destructor t) (slots t) in
  (set_slots_size t s 0, ev).

(** hash_table_destroy: clear, then [free] the three arrays and the table
    itself; the memory of the table is not modelled, so what remains
    observable are the releases made by the clear. *)
Definition hash_table_destroy (t : hash_table) : list event :=
  snd (hash_table_clear t).

(** The occupied slots, in index order. *)
Fixpoint entries (s : list slot) : list entry :=
  match s with
  | [] => []
  | None :: s' => entries s'
  | Some e :: s' => e :: entries s'
  end.

(** The values handed to [free] or to the destructor, in order. *)
Fixpoint released (ev : list event) : list ptr :=
  match ev with
  | [] => []
  | ReleaseValue p _ :: ev' => p :: released ev'
  | FreeKey _ :: ev' => released ev'
  end.

(** ** hash_table_insert_copy

    [value] is the NULL pointer ([None]) or the [value_size] bytes it
    designates; [value_copy] is the address [malloc(value_size)] returns
    when it succeeds.  The copied bytes are not tracked: the table stores
    the pointer [value_copy]. *)

Definition hash_table_insert_copy (o : alloc_oracle) (t : hash_table)
    (key : option bytes) (value : option bytes) (value_copy : ptr)
    : outcome (nat * hash_table * list event) :=
  match key, value with
  | Some _, Some _ =>
      let '(copy_ok, o1) := alloc o in
      if negb copy_ok then Done (1, t, []) else
      let* '(result, t1, ev) := hash_table_insert o1 t key value_copy in
      (* if insert failed, free the copy *)
      if negb (Nat.eqb result 0)
      then Done (result, t1, ev ++ [ReleaseValue value_copy false])
      else Done (result, t1, ev)
  | _, _ => Done (1, t, [])
  end.

(** ** ht_strdup (hash_table_util.c)

    The copy is given by its contents: the [strlen(s) + 1] bytes copied by
    [memcpy]; [None] is the NULL returned when [malloc] fails. *)
Definition ht_strdup (o : alloc_oracle) (s : bytes) : option bytes :=
  let len := S (strlen s) in
  let '(ok, _) := alloc o in
  if ok then Some (firstn len s) else None.

(** ** Invariants and probe paths *)

(** The probe of [k] from [idx] passes [d] occupied slots holding other keys. *)
Definition passes (s : list slot) (cap : nat) (k : bytes) (idx d : nat) : Prop :=
  forall j, j < d -> exists e', s !! ((idx + j) mod cap) = Some (Some e') /\
                               key_matches e' k = false.

(** The table's bookkeeping: one slot per unit of capacity, and [size]
    counting the occupied slots. *)
Definition well_formed (t : hash_table) : Prop :=
  length (slots t) = capacity t /\ size t = length (entries (slots t)).

(** The tables a program can hold: created, then changed by any sequence
    of inserts, removes and clears (whatever their outcome). *)
Inductive reachable : hash_table -> Prop :=
| reach_create (o : alloc_oracle) (cap : nat) (thr factor : Q) (d : bool) (t : hash_table) :
    hash_table_create_with_parameters_and_destructor o cap thr factor d = Done (Created t) ->
    reachable t
| reach_insert (o : alloc_oracle) (t : hash_table) (k : bytes) (v : ptr) (rc : nat)
    (t' : hash_table) (ev : list event) :
    reachable t -> hash_table_insert o t (Some k) v = Done (rc, t', ev) -> reachable t'
| reach_remove (t : hash_table) (k : bytes) (t' : hash_table) (ev : list event) :
    reachable t -> hash_table_remove t (Some k) = Done (t', ev) -> reachable t'
| reach_clear (t : hash_table) :
    reachable t -> reachable (fst (hash_table_clear t)).

(** ** Running a sequence of calls

    Each call gets a fresh oracle in which every allocation succeeds; only
    the table is threaded from one call to the next. *)

Definition run_insert (t : hash_table) (k : bytes) (v : ptr) : outcome hash_table :=
  let* '(_, t', _) := hash_table_insert [] t (Some k) v in Done t'.

Definition run_remove (t : hash_table) (k : bytes) : outcome hash_table :=
  let* '(t', _) := hash_table_remove t (Some k) in Done t'.

Definition created_table (c : outcome created) : outcome hash_table :=
  match c with
  | Done (Created t) => Done t
  | _ => Undefined
  end.

(** Three one-byte keys whose FNV-1a hashes agree modulo 16 (all 15). *)
Definition key_a : bytes := [Byte.x00].
Definition key_b : bytes := [Byte.x10].
Definition key_c : bytes := [Byte.x20].

Example keys_collide :
  map (fun k => N.modulo (hash_table_fnv_1a k) 16) [key_a; key_b; key_c] = [15; 15; 15]%N.
Proof. vm_compute. reflexivity. Qed.

(** ** General facts about the model *)

(** ** Single precision rounding *)

Section binary32_facts.
Local Open Scope Q_scope.

Lemma pow2_pos e : 0 < pow2 e.
Proof. apply Qpower_0_lt. reflexivity. Qed.

Lemma pow2_add a b : pow2 (a + b) == pow2 a * pow2 b.
Proof. apply Qpower_plus. discriminate. Qed.

Lemma pow2_le a b : (a <= b)%Z -> pow2 a <= pow2 b.
Proof. intros H. apply Qpower_le_compat_l; [exact H | discriminate]. Qed.

Lemma pow2_lt_inv a b : pow2 a < pow2 b -> (a < b)%Z.
Proof. intros H. apply (Qpower_lt_compat_l_inv (2 # 1)); [exact H | reflexivity]. Qed.

Lemma pow2_Z k : (0 <= k)%Z -> pow2 k == inject_Z (2 ^ k).
Proof. intros H. unfold pow2. rewrite Zpower_Qpower by exact H. reflexivity. Qed.

Lemma pow2_sub a b : pow2 (a - b) == pow2 a / pow2 b.
Proof.
  unfold Z.sub. rewrite pow2_add. unfold pow2. rewrite Qpower_opp. reflexivity.
Qed.

Lemma Qdiv_le_iff a b c d : 0 < b -> 0 < d -> (a / b <= c / d <-> a * d <= c * b).
Proof.
  intros Hb Hd. split; intros H.
  - apply (Qmult_le_r _ _ (/ b)). { apply Qinv_lt_0_compat; exact Hb. }
    apply (Qmult_le_r _ _ (/ d)). { apply Qinv_lt_0_compat; exact Hd. }
    assert (E1 : a * d * / b * / d == a / b) by (field; split; intro E; rewrite E in *; discriminate).
    assert (E2 : c * b * / b * / d == c / d) by (field; split; intro E; rewrite E in *; discriminate).
    rewrite E1, E2. exact H.
  - apply (Qmult_le_r _ _ (b * d)). { apply Qmult_lt_0_compat; assumption. }
    assert (E1 : a / b * (b * d) == a * d) by (field; intro E; rewrite E in *; discriminate).
    assert (E2 : c / d * (b * d) == c * b) by (field; intro E; rewrite E in *; discriminate).
    rewrite E1, E2. exact H.
Qed.

Lemma inject_Z_pos z : (0 < z)%Z -> 0 < inject_Z z.
Proof. intros H. change 0 with (inject_Z 0). rewrite <- Zlt_Qlt. exact H. Qed.

Lemma binade_spec x : 0 < x -> pow2 (binade x) <= x /\ x < pow2 (binade x + 1).
Proof.
  destruct x as [[|n|n] d]; intros Hx; try discriminate Hx.
  unfold binade; cbn [Qnum Qden].
    pose proof (Z.log2_spec (Zpos n) eq_refl) as [Hn1 Hn2].
    pose proof (Z.log2_spec (Zpos d) eq_refl) as [Hd1 Hd2].
    pose proof (Z.log2_nonneg (Zpos n)) as Hln.
    pose proof (Z.log2_nonneg (Zpos d)) as Hld.
    set (ln := Z.log2 (Zpos n)) in *. set (ld := Z.log2 (Zpos d)) in *.
    pose proof (Z.pow_pos_nonneg 2 ln ltac:(lia) Hln) as Pn.
    pose proof (Z.pow_pos_nonneg 2 ld ltac:(lia) Hld) as Pd.
    rewrite Z.pow_succ_r in Hn2, Hd2 by exact Hln || exact Hld.
    assert (Hlow : pow2 (ln - ld - 1) <= Zpos n # d).
    { replace (ln - ld - 1)%Z with (ln - (ld + 1))%Z by ring.
      rewrite pow2_sub, pow2_Z, pow2_Z, Qmake_Qdiv by lia.
      apply Qdiv_le_iff; [apply inject_Z_pos; lia | reflexivity |].
      rewrite <- !inject_Z_mult, <- Zle_Qle.
      rewrite Z.pow_add_r by lia. nia. }
    assert (Hup : Zpos n # d < pow2 (ln - ld + 1)).
    { replace (ln - ld + 1)%Z with ((ln + 1) - ld)%Z by ring.
      rewrite pow2_sub, pow2_Z, pow2_Z, Qmake_Qdiv by lia.
      apply Qnot_le_lt. intros H.
      apply (proj1 (Qdiv_le_iff _ _ _ _ (inject_Z_pos (2 ^ ld) Pd) (inject_Z_pos (Zpos d) eq_refl))) in H.
      rewrite <- !inject_Z_mult, <- Zle_Qle in H.
      rewrite Z.pow_add_r in H by lia. nia. }
    destruct (Qle_bool (pow2 (ln - ld)) (Zpos n # d)) eqn:E.
    + apply Qle_bool_iff in E. split; [exact E | exact Hup].
    + split.
      * exact Hlow.
      * replace (ln - ld - 1 + 1)%Z with (ln - ld)%Z by ring.
        apply Qnot_le_lt. intros H. apply Qle_bool_iff in H. congruence.
Qed.

Lemma binade_unique x L : pow2 L <= x -> x < pow2 (L + 1) -> binade x = L.
Proof.
  intros H1 H2.
  assert (Hx : 0 < x) by (apply (Qlt_le_trans _ _ _ (pow2_pos L)); exact H1).
  destruct (binade_spec x Hx) as [B1 B2].
  assert (L < binade x + 1)%Z by (apply pow2_lt_inv; apply (Qle_lt_trans _ x); assumption).
  assert (binade x < L + 1)%Z by (apply pow2_lt_inv; apply (Qle_lt_trans _ x); assumption).
  lia.
Qed.

Lemma binade_mono x y : 0 < x -> x <= y -> (binade x <= binade y)%Z.
Proof.
  intros Hx Hxy.
  assert (Hy : 0 < y) by (apply (Qlt_le_trans _ x); assumption).
  destruct (binade_spec x Hx) as [B1 B2]. destruct (binade_spec y Hy) as [C1 C2].
  assert (binade x < binade y + 1)%Z.
  { apply pow2_lt_inv. apply (Qle_lt_trans _ y); [|exact C2].
    apply (Qle_trans _ x); assumption. }
  lia.
Qed.

Lemma rne_cases x : rne x = Qfloor x \/ rne x = (Qfloor x + 1)%Z.
Proof.
  unfold rne. destruct (_ ?= _); [destruct (Z.even _)|..]; auto.
Qed.

Lemma rne_Z z : rne (inject_Z z) = z.
Proof.
  unfold rne. rewrite Qfloor_Z.
  assert (H : inject_Z z - inject_Z z < 1 # 2) by lra.
  rewrite Qlt_alt in H. rewrite H. reflexivity.
Qed.

Lemma rne_eq x y : x == y -> rne x = rne y.
Proof.
  intros H. unfold rne.
  assert (F : Qfloor x = Qfloor y).
  { apply Z.le_antisymm; apply Qfloor_resp_le; rewrite H; apply Qle_refl. }
  rewrite F, H. reflexivity.
Qed.

Lemma rne_mono x y : x <= y -> (rne x <= rne y)%Z.
Proof.
  intros Hxy.
  pose proof (Qfloor_resp_le _ _ Hxy) as Hf.
  destruct (Z_le_lt_eq_dec _ _ Hf) as [Hlt | Heq].
  - destruct (rne_cases x) as [-> | ->]; destruct (rne_cases y) as [-> | ->]; lia.
  - unfold rne. rewrite Heq. set (f := Qfloor y).
    assert (Hr : x - inject_Z f <= y - inject_Z f) by lra.
    destruct (Qcompare_spec (x - inject_Z f) (1 # 2)) as [E1|E1|E1];
    destruct (Qcompare_spec (y - inject_Z f) (1 # 2)) as [E2|E2|E2];
    try (destruct (Z.even f)); try lia; exfalso; lra.
Qed.

Lemma Qdiv_le_mono_r a c b : 0 < b -> a <= c -> a / b <= c / b.
Proof.
  intros Hb H. apply Qmult_le_compat_r; [exact H|].
  apply Qlt_le_weak, Qinv_lt_0_compat, Hb.
Qed.

Lemma Qdiv_lt_mono_r a c b : 0 < b -> a < c -> a / b < c / b.
Proof.
  intros Hb H. apply Qmult_lt_compat_r; [|exact H].
  apply Qinv_lt_0_compat, Hb.
Qed.

Lemma round32_pos x : 0 < x ->
  round32 x = inject_Z (rne (x / pow2 (binade x - 23))) * pow2 (binade x - 23).
Proof.
  destruct x as [[|n|n] d]; intros Hx; try discriminate Hx; reflexivity.
Qed.

Lemma scaled_bounds x : 0 < x ->
  (2 ^ 23 <= rne (x / pow2 (binade x - 23)) <= 2 ^ 24)%Z.
Proof.
  intros Hx. destruct (binade_spec x Hx) as [B1 B2].
  set (e := (binade x - 23)%Z).
  assert (L : inject_Z (2 ^ 23) <= x / pow2 e).
  { rewrite <- pow2_Z by lia.
    replace 23%Z with (binade x - e)%Z by (unfold e; ring).
    rewrite pow2_sub. apply Qdiv_le_mono_r; [apply pow2_pos | exact B1]. }
  assert (U : x / pow2 e < inject_Z (2 ^ 24)).
  { rewrite <- pow2_Z by lia.
    replace 24%Z with (binade x + 1 - e)%Z by (unfold e; ring).
    rewrite pow2_sub. apply Qdiv_lt_mono_r; [apply pow2_pos | exact B2]. }
  apply Qfloor_resp_le in L. rewrite Qfloor_Z in L.
  assert (U' : (Qfloor (x / pow2 e) < 2 ^ 24)%Z).
  { rewrite Zlt_Qlt. apply (Qle_lt_trans _ (x / pow2 e)); [apply Qfloor_le | exact U]. }
  destruct (rne_cases (x / pow2 e)) as [-> | ->]; lia.
Qed.

Lemma round32_zero : round32 0 = 0.
Proof. reflexivity. Qed.

Lemma round32_nonneg_pos x : 0 < x -> 0 <= round32 x.
Proof.
  intros Hx. rewrite (round32_pos x Hx).
  apply Qmult_le_0_compat; [| apply Qlt_le_weak, pow2_pos].
  change 0 with (inject_Z 0). rewrite <- Zle_Qle.
  pose proof (scaled_bounds x Hx). lia.
Qed.

Lemma round32_mono x y : 0 <= x -> x <= y -> round32 x <= round32 y.
Proof.
  intros Hx Hxy.
  destruct (Qle_lt_or_eq _ _ Hx) as [Px | Ex].
  2:{ destruct x as [[|n|n] d]; [| discriminate Ex | discriminate Ex].
      change (round32 (0 # d)) with 0.
      destruct y as [[|m|m] d']; [apply Qle_refl | | ].
      - apply round32_nonneg_pos. reflexivity.
      - exfalso. unfold Qle in Hxy. cbn in Hxy. lia. }
  assert (Py : 0 < y) by (apply (Qlt_le_trans _ x); assumption).
  pose proof (binade_mono x y Px Hxy) as Hb.
  rewrite (round32_pos x Px), (round32_pos y Py).
  destruct (Z_le_lt_eq_dec _ _ Hb) as [Hlt | Heq].
  - pose proof (scaled_bounds x Px) as [_ Sx]. pose proof (scaled_bounds y Py) as [Sy _].
    apply (Qle_trans _ (inject_Z (2 ^ 24) * pow2 (binade x - 23))).
    { apply Qmult_le_compat_r; [| apply Qlt_le_weak, pow2_pos]. rewrite <- Zle_Qle. exact Sx. }
    apply (Qle_trans _ (inject_Z (2 ^ 23) * pow2 (binade y - 23))).
    2:{ apply Qmult_le_compat_r; [| apply Qlt_le_weak, pow2_pos]. rewrite <- Zle_Qle. exact Sy. }
    rewrite <- !pow2_Z by lia. rewrite <- !pow2_add. apply pow2_le. lia.
  - rewrite Heq. apply Qmult_le_compat_r; [| apply Qlt_le_weak, pow2_pos].
    rewrite <- Zle_Qle. apply rne_mono. apply Qdiv_le_mono_r; [apply pow2_pos | exact Hxy].
Qed.

Lemma round32_nonneg x : 0 <= x -> 0 <= round32 x.
Proof. intros Hx. rewrite <- round32_zero. apply round32_mono; [apply Qle_refl | exact Hx]. Qed.

Lemma round32_int n : (0 <= n < 2 ^ 24)%Z -> round32 (inject_Z n) == inject_Z n.
Proof.
  intros Hn. destruct (Z.eq_dec n 0%Z) as [-> | Hn0]; [reflexivity|].
  assert (Px : 0 < inject_Z n) by (apply inject_Z_pos; lia).
  rewrite (round32_pos _ Px).
  destruct (binade_spec _ Px) as [B1 B2].
  assert (Hb : (binade (inject_Z n) < 24)%Z).
  { apply pow2_lt_inv. apply (Qle_lt_trans _ _ _ B1).
    rewrite pow2_Z by lia. rewrite <- Zlt_Qlt. lia. }
  set (e := (binade (inject_Z n) - 23)%Z) in *.
  assert (Z1 : inject_Z n / pow2 e == inject_Z (n * 2 ^ (- e))).
  { rewrite inject_Z_mult, <- pow2_Z by lia.
    unfold pow2. rewrite Qpower_opp. reflexivity. }
  rewrite (rne_eq _ _ Z1), rne_Z, inject_Z_mult, <- pow2_Z by lia.
  rewrite <- Qmult_assoc, <- pow2_add. replace (- e + e)%Z with 0%Z by ring.
  unfold pow2. simpl. ring.
Qed.

End binary32_facts.

Lemma memcmp_eq_true (a b : bytes) : memcmp_eq a b = true <-> a = b.
Proof.
  revert b; induction a as [|x a IH]; intros [|y b]; simpl;
    try (split; congruence).
  rewrite andb_true_iff, IH. split.
  - intros [Hxy ->]. apply Byte.byte_dec_bl in Hxy. now subst.
  - intros Heq. injection Heq as -> ->. split; [apply Byte.byte_dec_lb|]; reflexivity.
Qed.

Lemma key_matches_true (e : entry) (k : bytes) : key_matches e k = true <-> e_key e = k.
Proof.
  unfold key_matches. rewrite andb_true_iff, Nat.eqb_eq, memcmp_eq_true.
  split; [tauto|]. intros <-. auto.
Qed.

Lemma probe_found (s : list slot) (cap : nat) (k : bytes) (index it n i : nat)
    (e : entry) (it' : nat) :
  probe s cap k index it n = Found i e it' ->
  s !! i = Some (Some e) /\ e_key e = k.
Proof.
  revert index it. induction n as [|n IH]; intros index it; simpl;
    destruct (s !! index) as [[e0|]|] eqn:Hs; try discriminate.
  destruct (key_matches e0 k) eqn:Hm.
  - intros H. injection H as <- <- <-. split; [assumption|].
    now apply key_matches_true.
  - apply IH.
Qed.

Lemma probe_iterations_le (s : list slot) (cap : nat) (k : bytes) (index it n : nat) :
  probe_iterations (probe s cap k index it n) <= it + n.
Proof.
  revert index it. induction n as [|n IH]; intros index it; simpl;
    destruct (s !! index) as [[e0|]|]; simpl; try lia.
  destruct (key_matches e0 k); simpl; [lia|].
  specialize (IH ((S index) mod cap) (S it)). lia.
Qed.

Lemma probe_key_zero (t : hash_table) (k : bytes) :
  capacity t = 0 -> probe_key t k = Undefined.
Proof. intros H. unfold probe_key. now rewrite H. Qed.

Lemma grow_zero (f : Q) : grow 0 f = Done 0.
Proof. destruct f. reflexivity. Qed.

(** A resize that reports success grew the capacity to what was asked. *)
Lemma resize_success (o : alloc_oracle) (t : hash_table) (n : nat) (t1 : hash_table)
    (o1 : alloc_oracle) :
  hash_table_resize o t n = Done (0, t1, o1) ->
  capacity t < n /\ capacity t1 = n /\ resize_threshold t1 = resize_threshold t.
Proof.
  unfold hash_table_resize.
  destruct (Nat.leb n (capacity t)) eqn:Hle; [discriminate|].
  apply Nat.leb_gt in Hle.
  destruct (alloc o) as [b1 oa]; destruct (alloc oa) as [b2 ob];
    destruct (alloc ob) as [b3 oc].
  destruct (negb (b1 && b2 && b3)); [discriminate|].
  destruct (rehash n (slots t) (replicate n None) 0) as [[s m]|]; simpl;
    [|discriminate].
  intros H. injection H as <- _. simpl. auto.
Qed.

(** A resize that reports failure left the table as it was. *)
Lemma resize_failure (o : alloc_oracle) (t : hash_table) (n rc : nat) (t1 : hash_table)
    (o1 : alloc_oracle) :
  hash_table_resize o t n = Done (rc, t1, o1) -> rc <> 0 -> t1 = t.
Proof.
  unfold hash_table_resize.
  destruct (Nat.leb n (capacity t)); [intros H; injection H; auto|].
  destruct (alloc o) as [b1 oa]; destruct (alloc oa) as [b2 ob];
    destruct (alloc ob) as [b3 oc].
  destruct (negb (b1 && b2 && b3)); [intros H; injection H; auto|].
  destruct (rehash n (slots t) (replicate n None) 0) as [[s m]|]; simpl;
    [|discriminate].
  intros H. injection H as <- _ _. congruence.
Qed.

(** What a successful insert did: the load check and its resize (if any)
    succeeded with table [t1], then either the key was found in [t1] and
    its value replaced, or a new entry was stored. *)
Lemma insert_success (o : alloc_oracle) (t : hash_table) (k : bytes) (v : ptr)
    (t' : hash_table) (ev : list event) :
  hash_table_insert o t (Some k) v = Done (0, t', ev) ->
  exists t1 o1,
    (if load_exceeds (size t) (capacity t) (resize_threshold t)
     then (let* n := grow (capacity t) (resize_factor t) in hash_table_resize o t n)
     else Done (0, t, o)) = Done (0, t1, o1) /\
    capacity t' = capacity t1 /\ resize_threshold t' = resize_threshold t1 /\
    size t' <= S (size t1) /\
    (forall i e it, probe_key t1 k = Done (Found i e it) ->
       size t' = size t1 /\
       slots t' = <[i := Some (mk_entry (e_key e) v)]> (slots t1) /\
       ev = [release t1 (e_value e)]).
Proof.
  unfold hash_table_insert.
  destruct (if load_exceeds (size t) (capacity t) (resize_threshold t)
            then (let* n := grow (capacity t) (resize_factor t) in hash_table_resize o t n)
            else Done (0, t, o)) as [[[rc t1] o1]|] eqn:Hc; simpl; [|discriminate].
  destruct rc as [|rc]; simpl; [|discriminate].
  destruct (probe_key t1 k) as [[i e it|i it]|] eqn:Hp; simpl; try discriminate.
  - intros H. injection H as <- <-. exists t1, o1. simpl.
    split; [reflexivity|]. split; [reflexivity|]. split; [reflexivity|].
    split; [lia|].
    intros i' e' it' Hp'. rewrite Hp in Hp'. injection Hp' as <- <- <-. auto.
  - destruct (alloc o1) as [[|] o2]; simpl; [|discriminate].
    intros H. injection H as <- <-. exists t1, o1. simpl.
    split; [reflexivity|]. split; [reflexivity|]. split; [reflexivity|].
    split; [lia|].
    intros i' e' it' Hp'. rewrite Hp in Hp'. discriminate.
Qed.

Lemma load_exceeds_false (s c : nat) (thr : Q) :
  load_exceeds s c thr = false ->
  0 < c /\ (float_load (S s) c <= thr)%Q.
Proof.
  destruct c as [|c]; unfold load_exceeds; [discriminate|].
  intros H. apply negb_false_iff, Qle_bool_iff in H. split; [lia|exact H].
Qed.

Lemma load_exceeds_true (s c : nat) (thr : Q) :
  0 < c -> load_exceeds s c thr = true -> (thr < float_load (S s) c)%Q.
Proof.
  destruct c as [|c]; [lia|]. unfold load_exceeds. intros _ H.
  apply negb_true_iff in H. apply Qnot_le_lt. intros Hq.
  apply Qle_bool_iff in Hq. congruence.
Qed.

Lemma float_of_nat_mono (a b : nat) : a <= b -> (float_of_nat a <= float_of_nat b)%Q.
Proof.
  intros Hab. apply round32_mono.
  - change 0%Q with (inject_Z 0). rewrite <- Zle_Qle. lia.
  - rewrite <- Zle_Qle. lia.
Qed.

Lemma float_of_nat_ge_1 (c : nat) : 0 < c -> (1 <= float_of_nat c)%Q.
Proof.
  intros Hc. apply (Qle_trans _ (float_of_nat 1)).
  - apply Qle_bool_iff. reflexivity.
  - apply float_of_nat_mono. lia.
Qed.

Lemma float_of_nat_exact (n : nat) :
  (Z.of_nat n < 2 ^ 24)%Z -> (float_of_nat n == inject_Z (Z.of_nat n))%Q.
Proof. intros Hn. apply round32_int. lia. Qed.

Lemma float_load_mono (a b c : nat) :
  a <= b -> 0 < c -> (float_load a c <= float_load b c)%Q.
Proof.
  intros Hab Hc. pose proof (float_of_nat_ge_1 c Hc) as H1.
  assert (Hpos : (0 < float_of_nat c)%Q) by (apply (Qlt_le_trans _ 1); [reflexivity | exact H1]).
  apply round32_mono.
  - apply Qle_shift_div_l; [exact Hpos|]. rewrite Qmult_0_l.
    apply round32_nonneg. change 0%Q with (inject_Z 0). rewrite <- Zle_Qle. lia.
  - apply Qdiv_le_mono_r; [exact Hpos|]. apply float_of_nat_mono, Hab.
Qed.

(** A check that does not fire leaves room for the new entry when the
    threshold is below 1: [(float)(size + 1) / capacity] is at least 1 as
    soon as [size + 1 > capacity]. *)
Lemma load_exceeds_false_room (s c : nat) (thr : Q) :
  load_exceeds s c thr = false -> (thr < 1)%Q -> S s <= c.
Proof.
  intros Hl Hthr. destruct (load_exceeds_false _ _ _ Hl) as [Hc Hq].
  destruct (Nat.le_gt_cases (S s) c) as [Hle | Hgt]; [exact Hle|]. exfalso.
  pose proof (float_of_nat_ge_1 c Hc) as H1.
  assert (Hpos : (0 < float_of_nat c)%Q) by (apply (Qlt_le_trans _ 1); [reflexivity | exact H1]).
  assert (Hge : (1 <= float_of_nat (S s) / float_of_nat c)%Q).
  { apply Qle_shift_div_l; [exact Hpos|]. rewrite Qmult_1_l.
    apply float_of_nat_mono. lia. }
  assert (Hr : (round32 1 <= float_load (S s) c)%Q)
    by (apply round32_mono; [discriminate | exact Hge]).
  assert (E : (round32 1 == 1)%Q) by reflexivity.
  rewrite E in Hr.
  apply (Qlt_irrefl 1). apply (Qle_lt_trans _ thr); [|exact Hthr].
  apply (Qle_trans _ _ _ Hr Hq).
Qed.

(** The load check rounds: with [size = 2^24] and [capacity = 2^25],
    [(float)(size + 1)] is [2^24] and the check against 0.5 does not fire,
    although [(size + 1) / capacity] exceeds 0.5. *)
Lemma load_check_rounds :
  load_exceeds (2 ^ 24) (2 ^ 25) (1 # 2) = false /\
  (1 # 2 < inject_Z (Z.of_nat (S (2 ^ 24))) / inject_Z (Z.of_nat (2 ^ 25)))%Q.
Proof.
  assert (E : 2 ^ 25 = S (2 ^ 25 - 1))
    by (rewrite Nat.sub_1_r, Nat.succ_pred; [reflexivity | apply Nat.pow_nonzero; discriminate]).
  rewrite E at 2. unfold load_exceeds. rewrite <- E.
  unfold float_load, float_of_nat.
  rewrite Nat2Z.inj_succ, !Nat2Z.inj_pow. split; vm_compute; reflexivity.
Qed.

(** On a full table of capacity [2^24], [(float)(size + 1)] rounds to
    [(float)capacity] and the check against a threshold of 1 does not
    fire. *)
Lemma load_check_full_2_24 : load_exceeds (2 ^ 24) (2 ^ 24) 1 = false.
Proof.
  assert (E : 2 ^ 24 = S (2 ^ 24 - 1))
    by (rewrite Nat.sub_1_r, Nat.succ_pred; [reflexivity | apply Nat.pow_nonzero; discriminate]).
  rewrite E at 2. unfold load_exceeds. rewrite <- E.
  unfold float_load, float_of_nat.
  rewrite Nat2Z.inj_succ, Nat2Z.inj_pow. vm_compute. reflexivity.
Qed.

(** ** C2: the load after a successful insert *)

(** C2 (counterexample): with [resize_threshold = 0.25] and
    [resize_factor = 2], a table of capacity 1 grows once to capacity 2 on
    its first insert, which succeeds with load 1/2 > 0.25. *)
Lemma insert_load_above_threshold :
  exists t0 t1 ev,
    hash_table_create_with_parameters [] 1 (1 # 4) 2 = Done (Created t0) /\
    hash_table_insert [] t0 (Some key_a) 7 = Done (0, t1, ev) /\
    (resize_threshold t1 < inject_Z (Z.of_nat (size t1)) / inject_Z (Z.of_nat (capacity t1)))%Q.
Proof.
  eexists _, _, _. split; [reflexivity|]. split; [vm_compute; reflexivity|].
  vm_compute. reflexivity.
Qed.

(** C2 (amended): after an insert that returns success, if the load check
    [(float)(size + 1) / capacity > resize_threshold] (single precision)
    did not fire then the capacity is unchanged and the load of the new
    table computed the same way, [(float)size / capacity], is at most
    [resize_threshold]; if it fired, the capacity was grown once, to
    [(size_t)(capacity * resize_factor)] computed in single precision, which
    is strictly larger than before (a growth that would not increase the
    capacity is refused by the resize and the insert fails). *)
Theorem insert_success_load (o : alloc_oracle) (t : hash_table) (k : bytes) (v : ptr)
    (t' : hash_table) (ev : list event) :
  hash_table_insert o t (Some k) v = Done (0, t', ev) ->
  (load_exceeds (size t) (capacity t) (resize_threshold t) = false ->
     capacity t' = capacity t /\
     (float_load (size t') (capacity t') <= resize_threshold t')%Q) /\
  (load_exceeds (size t) (capacity t) (resize_threshold t) = true ->
     capacity t < capacity t' /\ grow (capacity t) (resize_factor t) = Done (capacity t')).
Proof.
  intros H. destruct (insert_success o t k v t' ev H)
    as (t1 & o1 & Hc & Hcap & Hthr & Hsize & _).
  split; intros Hl; rewrite Hl in Hc.
  - injection Hc as <- _. rewrite Hcap, Hthr. split; [reflexivity|].
    apply load_exceeds_false in Hl as [Hpos Hl].
    eapply Qle_trans; [apply float_load_mono; [exact Hsize | exact Hpos] | exact Hl].
  - destruct (grow (capacity t) (resize_factor t)) as [n|]; cbn [obind] in Hc;
      [|discriminate].
    apply resize_success in Hc as (Hlt & Hcap1 & _). rewrite Hcap, Hcap1.
    split; [exact Hlt | reflexivity].
Qed.

Lemma insert_success_load_witness :
  exists t0 t' ev,
    hash_table_create [] = Done (Created t0) /\
    hash_table_insert [] t0 (Some key_a) 1 = Done (0, t', ev) /\
    ((load_exceeds (size t0) (capacity t0) (resize_threshold t0) = false ->
       capacity t' = capacity t0 /\
       (float_load (size t') (capacity t') <= resize_threshold t')%Q) /\
     (load_exceeds (size t0) (capacity t0) (resize_threshold t0) = true ->
       capacity t0 < capacity t' /\
       grow (capacity t0) (resize_factor t0) = Done (capacity t'))).
Proof.
  eexists _, _, _. split; [reflexivity|].
  assert (H : hash_table_insert [] (mk_table 16 (replicate 16 None) 0 (1 # 2) 2 false)
                (Some key_a) 1 = Done (0, _, _)) by (vm_compute; reflexivity).
  split; [exact H|]. exact (insert_success_load _ _ _ _ _ _ H).
Defined.

(** ** C6: when an insert grows the table *)

(** C6 (counterexample): in a table of capacity 2 (threshold 0.5, factor
    2) holding one key, inserting that key again only replaces its value,
    adds no entry, and still doubles the capacity: the load check is made
    with [size + 1] before the key is looked up. *)
Lemma update_grows_capacity :
  exists t0 t1 t2 ev,
    hash_table_create_with_parameters [] 2 (1 # 2) 2 = Done (Created t0) /\
    run_insert t0 key_a 5 = Done t1 /\
    hash_table_get t1 (Some key_a) = Done 5%N /\
    hash_table_insert [] t1 (Some key_a) 6 = Done (0, t2, ev) /\
    size t2 = size t1 /\ capacity t1 = 2 /\ capacity t2 = 4.
Proof.
  eexists _, _, _, _. split; [reflexivity|]. split; [vm_compute; reflexivity|].
  split; [vm_compute; reflexivity|]. split; [vm_compute; reflexivity|].
  vm_compute. auto.
Qed.

(** C6 (amended): during an insert that returns success, the capacity
    changes exactly when [(float)(size + 1) / capacity > resize_threshold]
    holds in single precision ([size + 1] and [capacity] converted to float,
    the quotient rounded to float; a check made before the key is looked
    up, so also when the key is already present), and then becomes
    [(size_t)(capacity * resize_factor)], the product computed in single
    precision.  When the check does not fire and the key is already present,
    the insert keeps capacity and size, replaces the value of that one slot,
    leaves every other slot as it was, and releases the old value once. *)
Theorem insert_capacity_change (o : alloc_oracle) (t : hash_table) (k : bytes) (v : ptr)
    (t' : hash_table) (ev : list event) :
  hash_table_insert o t (Some k) v = Done (0, t', ev) ->
  (capacity t' <> capacity t <->
     load_exceeds (size t) (capacity t) (resize_threshold t) = true) /\
  (load_exceeds (size t) (capacity t) (resize_threshold t) = true ->
     grow (capacity t) (resize_factor t) = Done (capacity t')) /\
  (load_exceeds (size t) (capacity t) (resize_threshold t) = false ->
     forall i e it, probe_key t k = Done (Found i e it) ->
       capacity t' = capacity t /\ size t' = size t /\
       slots t' = <[i := Some (mk_entry (e_key e) v)]> (slots t) /\
       ev = [release t (e_value e)]).
Proof.
  intros H. destruct (insert_success o t k v t' ev H)
    as (t1 & o1 & Hc & Hcap & _ & _ & Hupd).
  destruct (load_exceeds (size t) (capacity t) (resize_threshold t)).
  - destruct (grow (capacity t) (resize_factor t)) as [n|]; cbn [obind] in Hc;
      [|discriminate].
    apply resize_success in Hc as (Hlt & Hcap1 & _).
    split; [split; [reflexivity|lia]|]. split; [rewrite Hcap, Hcap1; reflexivity|discriminate].
  - injection Hc as <- _.
    split; [split; [lia|discriminate]|]. split; [discriminate|].
    intros _ i e it Hp. destruct (Hupd i e it Hp) as (Hs & Hsl & Hev). auto.
Qed.

Lemma insert_capacity_change_witness :
  exists t0 t1 t' ev,
    hash_table_create [] = Done (Created t0) /\
    run_insert t0 key_a 1 = Done t1 /\
    hash_table_insert [] t1 (Some key_a) 2 = Done (0, t', ev) /\
    ((capacity t' <> capacity t1 <->
       load_exceeds (size t1) (capacity t1) (resize_threshold t1) = true) /\
     (load_exceeds (size t1) (capacity t1) (resize_threshold t1) = true ->
       grow (capacity t1) (resize_factor t1) = Done (capacity t')) /\
     (load_exceeds (size t1) (capacity t1) (resize_threshold t1) = false ->
       forall i e it, probe_key t1 key_a = Done (Found i e it) ->
         capacity t' = capacity t1 /\ size t' = size t1 /\
         slots t' = <[i := Some (mk_entry (e_key e) 2)]> (slots t1) /\
         ev = [release t1 (e_value e)])).
Proof.
  eexists _, _, _, _. split; [reflexivity|]. split; [vm_compute; reflexivity|].
  match goal with
  | |- ?A /\ _ =>
      assert (H : A) by (vm_compute; reflexivity);
      split; [exact H|exact (insert_capacity_change _ _ _ _ _ _ H)]
  end.
Defined.

Lemma probe_key_found (t : hash_table) (k : bytes) (i : nat) (e : entry) (it : nat) :
  probe_key t k = Done (Found i e it) -> slots t !! i = Some (Some e) /\ e_key e = k.
Proof.
  unfold probe_key. destruct (mod_size (hash_table_fnv_1a k) (capacity t)); simpl;
    [|discriminate].
  intros H. injection H as H. eapply probe_found; exact H.
Qed.

(** ** C4: contains *)

(** C4 (counterexample): a key inserted with a NULL value sits in a slot,
    yet [hash_table_contains] reports it absent. *)
Lemma contains_misses_null_value :
  exists t0 t1,
    hash_table_create [] = Done (Created t0) /\
    run_insert t0 key_a NULL = Done t1 /\
    slots t1 !! 15 = Some (Some (mk_entry key_a NULL)) /\
    hash_table_contains t1 (Some key_a) = Done 0.
Proof.
  eexists _, _. split; [reflexivity|]. split; [vm_compute; reflexivity|].
  vm_compute. auto.
Qed.

(** C4 (amended): [hash_table_contains] is [hash_table_get(...) != NULL]
    (0 for a NULL key); it returns 1 exactly when the probe from
    [hash(key) % capacity] reaches a slot holding that exact key whose value
    is not NULL. *)
Theorem contains_is_get_non_null (t : hash_table) :
  (forall key, hash_table_contains t key =
     let* v := hash_table_get t key in Done (if N.eqb v NULL then 0 else 1)) /\
  (forall k, hash_table_contains t (Some k) = Done 1 <->
     exists i e it, probe_key t k = Done (Found i e it) /\
       slots t !! i = Some (Some e) /\ e_key e = k /\ e_value e <> NULL).
Proof.
  split.
  - intros [k|]; reflexivity.
  - intros k. unfold hash_table_contains, hash_table_get.
    destruct (probe_key t k) as [[i e it|i it]|] eqn:Hp; simpl.
    + destruct (probe_key_found t k i e it Hp) as [Hs Hk].
      destruct (N.eqb (e_value e) NULL) eqn:Hv.
      * apply N.eqb_eq in Hv. split; [discriminate|].
        intros (i' & e' & it' & Hp' & _ & _ & Hne).
        injection Hp' as <- <- <-. contradiction.
      * apply N.eqb_neq in Hv. split; [|reflexivity].
        intros _. exists i, e, it. auto.
    + split; [discriminate|]. intros (i' & e' & it' & Hp' & _). discriminate.
    + split; [discriminate|]. intros (i' & e' & it' & Hp' & _). discriminate.
Qed.

(** ** C8: keys of different lengths never match *)

Lemma string_key_length (s : bytes) :
  strlen s < length s -> length (string_key s) = S (strlen s).
Proof. intros H. unfold string_key. rewrite length_firstn. lia. Qed.

(** C8: a probe for a key only ever stops on a slot holding exactly that key
    (equal length and equal bytes), so get, contains, insert and remove on a
    key never act on the slot of a key of another length; in particular the
    [strlen(s) + 1] bytes used by the string wrappers never match the same
    characters stored without their terminator. *)
Theorem key_length_distinguishes (t : hash_table) (k1 k2 : bytes) :
  length k1 <> length k2 ->
  (forall i e it, probe_key t k2 = Done (Found i e it) -> e_key e <> k1) /\
  (forall s, strlen s < length s ->
     forall i e it, probe_key t (string_key s) = Done (Found i e it) ->
       e_key e <> firstn (strlen s) s).
Proof.
  intros Hlen. split.
  - intros i e it Hp. apply probe_key_found in Hp as [_ ->].
    intros ->. apply Hlen. reflexivity.
  - intros s Hs i e it Hp. apply probe_key_found in Hp as [_ ->].
    intros Heq. apply (f_equal (@length _)) in Heq.
    rewrite string_key_length in Heq by exact Hs.
    rewrite length_firstn in Heq. lia.
Qed.

Lemma key_length_distinguishes_witness :
  exists t0 t1,
    hash_table_create [] = Done (Created t0) /\
    run_insert t0 [Byte.x61; Byte.x62; Byte.x00] 1 = Done t1 /\
    length [Byte.x61; Byte.x62] <> length [Byte.x61; Byte.x62; Byte.x00] /\
    ((forall i e it, probe_key t1 [Byte.x61; Byte.x62; Byte.x00] = Done (Found i e it) ->
        e_key e <> [Byte.x61; Byte.x62]) /\
     (forall s, strlen s < length s ->
        forall i e it, probe_key t1 (string_key s) = Done (Found i e it) ->
          e_key e <> firstn (strlen s) s)).
Proof.
  eexists _, _. split; [reflexivity|]. split; [vm_compute; reflexivity|].
  assert (H : length [Byte.x61; Byte.x62] <> length [Byte.x61; Byte.x62; Byte.x00])
    by (simpl; lia).
  split; [exact H|]. exact (key_length_distinguishes _ _ _ H).
Defined.

(** ** C9: the probe loop is bounded *)

(** C9: whatever the slots hold (a full array included), the probe loop
    shared by get, contains, insert and remove runs at most [capacity]
    iterations. *)
Theorem probe_at_most_capacity (t : hash_table) (k : bytes) (r : probe_result) :
  probe_key t k = Done r -> probe_iterations r <= capacity t.
Proof.
  unfold probe_key. destruct (mod_size (hash_table_fnv_1a k) (capacity t)) as [i|];
    simpl; [|discriminate].
  intros H. injection H as <-. apply probe_iterations_le.
Qed.

(** A full table of capacity 2: the loop gives up after 2 iterations. *)
Lemma probe_at_most_capacity_witness :
  probe_key (mk_table 2 [Some (mk_entry key_a 1); Some (mk_entry key_b 2)] 2 1 2 false)
    key_c = Done (Stopped 1 2) /\
  probe_iterations (Stopped 1 2) <= 2.
Proof.
  assert (H : probe_key (mk_table 2 [Some (mk_entry key_a 1); Some (mk_entry key_b 2)]
                           2 1 2 false) key_c = Done (Stopped 1 2))
    by (vm_compute; reflexivity).
  split; [exact H|]. exact (probe_at_most_capacity _ _ _ H).
Defined.

(** ** C10: a table of capacity 0 *)

(** C10 (counterexample): [create] accepts capacity 0, but an insert on the
    resulting table never reaches [hash % capacity]: it fails with 1. *)
Lemma zero_capacity_insert_fails :
  exists t0,
    hash_table_create_with_parameters [] 0 (1 # 2) 2 = Done (Created t0) /\
    capacity t0 = 0 /\
    hash_table_insert [] t0 (Some key_a) 7 = Done (1, t0, []).
Proof. eexists. split; [reflexivity|]. split; reflexivity. Qed.

(** C10 (amended): creation performs no validation and returns a table of
    capacity 0 when asked for one.  On a table of capacity 0, get, contains
    and remove on a non-NULL key compute [hash % 0] (undefined behaviour);
    insert instead fails with 1 and leaves the table unchanged, before any
    modulus: [(size + 1) / 0] is +inf, above the threshold, and the resize
    to [(size_t)(0 * factor) = 0] slots is refused. *)
Theorem zero_capacity_behaviour (t : hash_table) :
  capacity t = 0 ->
  (forall thr f d, hash_table_create_with_parameters_and_destructor [] 0 thr f d
                   = Done (Created (mk_table 0 [] 0 thr f d))) /\
  (forall k, hash_table_get t (Some k) = Undefined /\
             hash_table_contains t (Some k) = Undefined /\
             hash_table_remove t (Some k) = Undefined) /\
  (forall o k v, hash_table_insert o t (Some k) v = Done (1, t, [])).
Proof.
  intros H. split; [reflexivity|]. split.
  - intros k. unfold hash_table_contains, hash_table_get, hash_table_remove.
    rewrite (probe_key_zero t k H). auto.
  - intros o k v. unfold hash_table_insert, hash_table_resize.
    rewrite H, grow_zero. reflexivity.
Qed.

Lemma zero_capacity_behaviour_witness :
  capacity (mk_table 0 [] 0 (1 # 2) 2 false) = 0 /\
  ((forall thr f d, hash_table_create_with_parameters_and_destructor [] 0 thr f d
                    = Done (Created (mk_table 0 [] 0 thr f d))) /\
   (forall k, hash_table_get (mk_table 0 [] 0 (1 # 2) 2 false) (Some k) = Undefined /\
              hash_table_contains (mk_table 0 [] 0 (1 # 2) 2 false) (Some k) = Undefined /\
              hash_table_remove (mk_table 0 [] 0 (1 # 2) 2 false) (Some k) = Undefined) /\
   (forall o k v, hash_table_insert o (mk_table 0 [] 0 (1 # 2) 2 false) (Some k) v
                  = Done (1, mk_table 0 [] 0 (1 # 2) 2 false, []))).
Proof.
  assert (H : capacity (mk_table 0 [] 0 (1 # 2) 2 false) = 0) by reflexivity.
  split; [exact H|]. exact (zero_capacity_behaviour _ H).
Defined.

(** ** C1: insert failing after the table has grown *)

(** A failure reported by the resize itself leaves the table unchanged and
    releases nothing. *)
Lemma insert_resize_failure (o : alloc_oracle) (t : hash_table) (k : bytes) (v : ptr)
    (rc : nat) (t1 : hash_table) (o1 : alloc_oracle) :
  load_exceeds (size t) (capacity t) (resize_threshold t) = true ->
  (let* n := grow (capacity t) (resize_factor t) in hash_table_resize o t n) = Done (rc, t1, o1) ->
  rc <> 0 ->
  hash_table_insert o t (Some k) v = Done (1, t, []).
Proof.
  intros Hl Hr Hrc.
  assert (Ht : t1 = t).
  { destruct (grow (capacity t) (resize_factor t)) as [n|]; cbn [obind] in Hr;
      [|discriminate].
    exact (resize_failure _ _ _ _ _ _ Hr Hrc). }
  subst t1. unfold hash_table_insert. rewrite Hl, Hr. cbn [obind].
  destruct rc; [contradiction|reflexivity].
Qed.

(** C1: in a table of capacity 1 (threshold 0.5, factor 2), the first
    insert grows the table to capacity 2, then the [malloc] of the key copy
    fails: the insert reports failure but the table has been reallocated
    with capacity 2. *)
Theorem insert_fails_after_growth :
  exists t0 t1,
    hash_table_create_with_parameters [] 1 (1 # 2) 2 = Done (Created t0) /\
    hash_table_insert [true; true; true; false] t0 (Some key_a) 7 = Done (1, t1, []) /\
    capacity t0 = 1 /\ capacity t1 = 2 /\ t1 <> t0.
Proof.
  eexists _, _. split; [reflexivity|]. split; [vm_compute; reflexivity|].
  split; [reflexivity|]. split; [reflexivity|]. discriminate.
Qed.

(** ** C3: removal breaks probe chains *)

(** C3: [key_a] and [key_b] both hash to slot 15 of the default table;
    [key_b] lands in slot 0 after wrapping around.  Removing [key_a] empties
    slot 15, and the probe for [key_b] now stops there: [key_b], never
    removed and still stored in slot 0, is reported absent.  Inserting
    [key_b] again then stores a second copy in slot 15 (get returns its
    value 3); filling the table up to size 8 and inserting a ninth key
    grows it to capacity 32, the rehash visits slot 0 before slot 15, and
    get on [key_b] returns the older value 2 after the growth. *)
Theorem remove_breaks_lookups :
  (exists t0 t1 t2 t3,
    hash_table_create [] = Done (Created t0) /\
    run_insert t0 key_a 1 = Done t1 /\
    run_insert t1 key_b 2 = Done t2 /\
    hash_table_get t2 (Some key_b) = Done 2%N /\
    run_remove t2 key_a = Done t3 /\
    slots t3 !! 0 = Some (Some (mk_entry key_b 2)) /\
    hash_table_get t3 (Some key_b) = Done NULL) /\
  (exists t3 t4 t10 t11,
    (let* t0 := created_table (hash_table_create []) in
     let* t1 := run_insert t0 key_a 1 in
     let* t2 := run_insert t1 key_b 2 in
     run_remove t2 key_a) = Done t3 /\
    run_insert t3 key_b 3 = Done t4 /\
    (let* t5 := run_insert t4 [Byte.x01] 11 in
     let* t6 := run_insert t5 [Byte.x02] 12 in
     let* t7 := run_insert t6 [Byte.x03] 13 in
     let* t8 := run_insert t7 [Byte.x04] 14 in
     let* t9 := run_insert t8 [Byte.x05] 15 in
     run_insert t9 [Byte.x06] 16) = Done t10 /\
    hash_table_get t10 (Some key_b) = Done 3%N /\
    run_insert t10 [Byte.x07] 17 = Done t11 /\
    capacity t10 = 16 /\ capacity t11 = 32 /\
    hash_table_get t11 (Some key_b) = Done 2%N).
Proof.
  split.
  - eexists _, _, _, _. split; [reflexivity|].
    split; [vm_compute; reflexivity|]. split; [vm_compute; reflexivity|].
    split; [vm_compute; reflexivity|]. split; [vm_compute; reflexivity|].
    vm_compute. auto.
  - eexists _, _, _, _.
    do 5 (split; [vm_compute; reflexivity|]).
    vm_compute. auto.
Qed.

(** ** C5: creation does not check its allocations *)

(** C5: no creation form ever returns NULL.  When [malloc] of the table
    fails, the next statement writes through the NULL pointer; when a
    [calloc] of a backing array fails, a table with a NULL array is
    returned.  When every allocation succeeds the table is as described:
    [capacity] empty slots and size 0. *)
Theorem create_unchecked_allocations :
  hash_table_create [false] = Undefined /\
  hash_table_create_with_destructor [false] true = Undefined /\
  hash_table_create_with_parameters [false] 16 (1 # 2) 2 = Undefined /\
  hash_table_create_with_parameters_and_destructor [false] 16 (1 # 2) 2 true = Undefined /\
  hash_table_create [true; false] = Done (CreatedWithNullArrays 16 true false false) /\
  hash_table_create_with_destructor [true; true; false] true
    = Done (CreatedWithNullArrays 16 false true false) /\
  hash_table_create_with_parameters [true; true; true; false] 8 (3 # 4) 2
    = Done (CreatedWithNullArrays 8 false false true) /\
  (forall c thr f d, hash_table_create_with_parameters_and_destructor [] c thr f d
     = Done (Created (mk_table c (replicate c None) 0 thr f d))).
Proof. repeat split. Qed.

(** ** C7: a removed key can come back *)

(** Removing a key the probe does not find changes nothing and releases
    nothing. *)
Lemma remove_not_found (t : hash_table) (k : bytes) (i it : nat) :
  probe_key t k = Done (Stopped i it) -> hash_table_remove t (Some k) = Done (t, []).
Proof. intros H. unfold hash_table_remove. rewrite H. reflexivity. Qed.

(** A get on a key that no slot holds returns NULL. *)
Lemma get_absent (t : hash_table) (k : bytes) :
  0 < capacity t ->
  (forall i e, slots t !! i = Some (Some e) -> e_key e <> k) ->
  hash_table_get t (Some k) = Done NULL.
Proof.
  intros Hc Habs. unfold hash_table_get.
  destruct (probe_key t k) as [[i e it|i it]|] eqn:Hp; simpl; try reflexivity.
  - apply probe_key_found in Hp as [Hs Hk]. exfalso. exact (Habs i e Hs Hk).
  - unfold probe_key in Hp. destruct (capacity t); [lia|discriminate].
Qed.

(** C7: with the colliding keys of C3: insert [key_a], insert [key_b]
    (slot 0), remove [key_a] (slot 15 emptied), insert [key_b] again (a
    second copy in slot 15), remove [key_b] (slot 15 emptied; the copy in
    slot 0 stays), insert [key_c] (slot 15).  [key_b] was removed and not
    inserted again, yet get returns its first value and contains reports
    it present. *)
Theorem removed_key_found_again :
  exists t0 t1 t2 t3 t4 t5 t6,
    hash_table_create [] = Done (Created t0) /\
    run_insert t0 key_a 1 = Done t1 /\
    run_insert t1 key_b 2 = Done t2 /\
    run_remove t2 key_a = Done t3 /\
    run_insert t3 key_b 3 = Done t4 /\
    run_remove t4 key_b = Done t5 /\
    run_insert t5 key_c 4 = Done t6 /\
    hash_table_get t5 (Some key_b) = Done NULL /\
    hash_table_get t6 (Some key_b) = Done 2%N /\
    hash_table_contains t6 (Some key_b) = Done 1.
Proof.
  eexists _, _, _, _, _, _, _. split; [reflexivity|].
  do 6 (split; [vm_compute; reflexivity|]).
  vm_compute. auto.
Qed.

(** ** The probe path

    From [idx], step [j] of the loop looks at slot [(idx + j) % capacity].
    [passes s cap k idx d]: the first [d] slots on the path are occupied by
    keys other than [k]. *)

Lemma mod_first (idx cap : nat) : idx < cap -> (idx + 0) mod cap = idx.
Proof. intros H. rewrite Nat.add_0_r. apply Nat.mod_small, H. Qed.

Lemma mod_step (cap idx j : nat) :
  0 < cap -> (S idx mod cap + j) mod cap = (idx + S j) mod cap.
Proof.
  intros Hc. rewrite Nat.Div0.add_mod_idemp_l. f_equal. lia.
Qed.

Lemma passes_step (s : list slot) (cap : nat) (k : bytes) (idx d : nat) (e0 : entry) :
  0 < cap -> idx < cap ->
  s !! idx = Some (Some e0) -> key_matches e0 k = false ->
  passes s cap k (S idx mod cap) d -> passes s cap k idx (S d).
Proof.
  intros Hc Hi Hs Hm Hp [|j] Hj.
  - exists e0. rewrite (mod_first _ _ Hi). auto.
  - rewrite <- mod_step by exact Hc. apply Hp. lia.
Qed.

Lemma passes_tail (s : list slot) (cap : nat) (k : bytes) (idx d : nat) :
  0 < cap -> passes s cap k idx (S d) -> passes s cap k (S idx mod cap) d.
Proof.
  intros Hc Hp j Hj. rewrite mod_step by exact Hc. apply Hp. lia.
Qed.

Lemma passes_zero (s : list slot) (cap : nat) (k : bytes) (idx : nat) :
  passes s cap k idx 0.
Proof. intros j Hj. lia. Qed.

Lemma probe_path (s : list slot) (cap : nat) (k : bytes) (n : nat) :
  0 < cap -> forall idx it, idx < cap ->
  (forall i e it', probe s cap k idx it n = Found i e it' ->
     exists d, it' = it + d /\ d < n /\ i = (idx + d) mod cap /\
       s !! i = Some (Some e) /\ key_matches e k = true /\ passes s cap k idx d) /\
  (forall i it', probe s cap k idx it n = Stopped i it' ->
     exists d, it' = it + d /\ d <= n /\ i = (idx + d) mod cap /\
       passes s cap k idx d /\ (d = n \/ forall e, s !! i <> Some (Some e))).
Proof.
  intros Hc. induction n as [|n IH]; intros idx it Hi; simpl.
  - split; intros *; destruct (s !! idx) as [[e0|]|] eqn:Hs; try discriminate;
      intros H; injection H as <- <-; exists 0; rewrite (mod_first _ _ Hi);
      (split; [lia|]); (split; [lia|]); (split; [reflexivity|]);
      (split; [apply passes_zero|]); left; reflexivity.
  - destruct (s !! idx) as [[e0|]|] eqn:Hs.
    + destruct (key_matches e0 k) eqn:Hm.
      * split; intros *; [|discriminate].
        intros H. injection H as <- <- <-.
        exists 0. rewrite (mod_first _ _ Hi).
        split; [lia|]. split; [lia|]. split; [reflexivity|].
        split; [exact Hs|]. split; [exact Hm|]. apply passes_zero.
      * assert (Hi' : S idx mod cap < cap) by (apply Nat.mod_upper_bound; lia).
        destruct (IH (S idx mod cap) (S it) Hi') as [IHf IHs]. split.
        -- intros i e it' H. destruct (IHf i e it' H) as (d & -> & Hd & -> & Hse & Hme & Hp).
           exists (S d). rewrite mod_step in Hse |- * by exact Hc.
           split; [lia|]. split; [lia|]. split; [reflexivity|].
           split; [exact Hse|]. split; [exact Hme|]. eapply passes_step; eauto.
        -- intros i it' H. destruct (IHs i it' H) as (d & -> & Hd & -> & Hp & Hend).
           exists (S d). rewrite mod_step in Hend |- * by exact Hc.
           split; [lia|]. split; [lia|]. split; [reflexivity|].
           split; [eapply passes_step; eauto|].
           destruct Hend as [->|Hend]; [left; reflexivity|right; exact Hend].
    + split; intros *; [discriminate|]. intros H. injection H as <- <-.
      exists 0. rewrite (mod_first _ _ Hi).
      split; [lia|]. split; [lia|]. split; [reflexivity|].
      split; [apply passes_zero|]. right. intros e. rewrite Hs. discriminate.
    + split; intros *; [discriminate|]. intros H. injection H as <- <-.
      exists 0. rewrite (mod_first _ _ Hi).
      split; [lia|]. split; [lia|]. split; [reflexivity|].
      split; [apply passes_zero|]. right. intros e. rewrite Hs. discriminate.
Qed.

(** Conversely, a path of [d] non-matching occupied slots followed by a
    matching one (resp. a free one) determines the result. *)
Lemma probe_reaches_found (s : list slot) (cap : nat) (k : bytes) (d : nat) :
  0 < cap -> forall idx it n e, idx < cap -> d < n -> passes s cap k idx d ->
  s !! ((idx + d) mod cap) = Some (Some e) -> key_matches e k = true ->
  probe s cap k idx it n = Found ((idx + d) mod cap) e (it + d).
Proof.
  intros Hc. induction d as [|d IH]; intros idx it n e Hi Hd Hp Hs Hm;
    destruct n as [|n]; try lia; simpl.
  - rewrite (mod_first _ _ Hi) in Hs |- *.
    rewrite Hs, Hm, Nat.add_0_r. reflexivity.
  - destruct (Hp 0 ltac:(lia)) as (e0 & Hs0 & Hm0).
    rewrite (mod_first _ _ Hi) in Hs0.
    rewrite Hs0, Hm0.
    rewrite <- mod_step in Hs |- * by exact Hc.
    replace (it + S d) with (S it + d) by lia.
    apply IH; auto; [apply Nat.mod_upper_bound; lia|lia|].
    apply passes_tail; assumption.
Qed.

Lemma probe_reaches_free (s : list slot) (cap : nat) (k : bytes) (d : nat) :
  0 < cap -> forall idx it n, idx < cap -> d <= n -> passes s cap k idx d ->
  (forall e, s !! ((idx + d) mod cap) <> Some (Some e)) ->
  probe s cap k idx it n = Stopped ((idx + d) mod cap) (it + d).
Proof.
  intros Hc. induction d as [|d IH]; intros idx it n Hi Hd Hp Hs.
  - rewrite (mod_first _ _ Hi) in Hs |- *.
    rewrite Nat.add_0_r. destruct n; simpl;
      destruct (s !! idx) as [[e0|]|]; try reflexivity; exfalso; exact (Hs e0 eq_refl).
  - destruct n as [|n]; [lia|]. simpl.
    destruct (Hp 0 ltac:(lia)) as (e0 & Hs0 & Hm0).
    rewrite (mod_first _ _ Hi) in Hs0.
    rewrite Hs0, Hm0.
    rewrite <- mod_step in Hs |- * by exact Hc.
    replace (it + S d) with (S it + d) by lia.
    apply IH; auto; [apply Nat.mod_upper_bound; lia|lia|].
    apply passes_tail; assumption.
Qed.

Lemma passes_insert_ne (s : list slot) (cap : nat) (k : bytes) (idx d i : nat) (x : slot) :
  passes s cap k idx d -> (forall j, j < d -> (idx + j) mod cap <> i) ->
  passes (<[i := x]> s) cap k idx d.
Proof.
  intros Hp Hne j Hj. rewrite list_lookup_insert_ne by (apply not_eq_sym, Hne, Hj).
  apply Hp, Hj.
Qed.

Lemma key_matches_same_key (e1 e2 : entry) (k : bytes) :
  e_key e1 = e_key e2 -> key_matches e1 k = key_matches e2 k.
Proof. unfold key_matches. intros ->. reflexivity. Qed.

Lemma probe_key_done (t : hash_table) (k : bytes) (r : probe_result) :
  probe_key t k = Done r ->
  0 < capacity t /\
  exists start, start < capacity t /\
    r = probe (slots t) (capacity t) k start 0 (capacity t) /\
    forall t', capacity t' = capacity t ->
      probe_key t' k = Done (probe (slots t') (capacity t) k start 0 (capacity t)).
Proof.
  unfold probe_key, mod_size. destruct (capacity t) as [|c] eqn:Hc; simpl; [discriminate|].
  intros H. injection H as <-. split; [lia|].
  eexists. split; [|split; [reflexivity|]].
  - assert (Hlt : (hash_table_fnv_1a k mod N.of_nat (S c) < N.of_nat (S c))%N)
      by (apply N.mod_lt; lia).
    lia.
  - intros t' Ht'. rewrite Ht'. reflexivity.
Qed.

Lemma rehash_length (cap : nat) (old acc : list slot) (m : nat) (s : list slot) (m' : nat) :
  rehash cap old acc m = Done (s, m') -> length s = length acc.
Proof.
  revert acc m. induction old as [|[e|] old IH]; intros acc m; simpl.
  - intros H. injection H as <- _. reflexivity.
  - destruct (mod_size (hash_table_fnv_1a (e_key e)) cap) as [h|]; simpl; [|discriminate].
    intros H. rewrite (IH _ _ H). apply length_insert.
  - apply IH.
Qed.

Lemma resize_success_length (o : alloc_oracle) (t : hash_table) (n : nat) (t1 : hash_table)
    (o1 : alloc_oracle) :
  hash_table_resize o t n = Done (0, t1, o1) -> length (slots t1) = capacity t1.
Proof.
  unfold hash_table_resize.
  destruct (Nat.leb n (capacity t)); [discriminate|].
  destruct (alloc o) as [b1 oa]; destruct (alloc oa) as [b2 ob];
    destruct (alloc ob) as [b3 oc].
  destruct (negb (b1 && b2 && b3)); [discriminate|].
  destruct (rehash n (slots t) (replicate n None) 0) as [[s m]|] eqn:Hr; simpl;
    [|discriminate].
  intros H. injection H as <- _. simpl. rewrite (rehash_length _ _ _ _ _ _ Hr).
  apply length_replicate.
Qed.

(** The table an insert works on after its load check. *)
Lemma insert_check_length (o : alloc_oracle) (t : hash_table) (t1 : hash_table)
    (o1 : alloc_oracle) :
  length (slots t) = capacity t ->
  (if load_exceeds (size t) (capacity t) (resize_threshold t)
   then (let* n := grow (capacity t) (resize_factor t) in hash_table_resize o t n)
   else Done (0, t, o)) = Done (0, t1, o1) ->
  length (slots t1) = capacity t1.
Proof.
  intros Hlen. destruct (load_exceeds (size t) (capacity t) (resize_threshold t)).
  - destruct (grow (capacity t) (resize_factor t)) as [n|]; cbn [obind];
      [|intros Hu; discriminate Hu].
    apply resize_success_length.
  - intros H. injection H as <- _. exact Hlen.
Qed.

Lemma mod_full_turn (start cap : nat) : start < cap -> (start + cap) mod cap = start.
Proof.
  intros H. rewrite <- (Nat.mul_1_l cap) at 1. rewrite Nat.Div0.mod_add.
  apply Nat.mod_small, H.
Qed.

(** After the probe of [k] stopped at [i], storing an entry with key [k] in
    slot [i] makes the same probe find it there. *)
Lemma probe_after_store (s : list slot) (cap : nat) (k : bytes) (start i it : nat)
    (e' : entry) :
  0 < cap -> start < cap -> length s = cap -> e_key e' = k ->
  probe s cap k start 0 cap = Stopped i it ->
  exists it', probe (<[i := Some e']> s) cap k start 0 cap = Found i e' it'.
Proof.
  intros Hc Hs Hlen Hk Hp.
  destruct (proj2 (probe_path s cap k cap Hc start 0 Hs) i it Hp)
    as (d & -> & Hd & -> & Hpass & Hend).
  assert (Hi : (start + d) mod cap < length s) by (rewrite Hlen; apply Nat.mod_upper_bound; lia).
  assert (Hm : key_matches e' k = true) by (apply key_matches_true, Hk).
  destruct (decide (d = cap)) as [->|Hne].
  - rewrite mod_full_turn by exact Hs.
    rewrite mod_full_turn in Hi by exact Hs.
    pose proof (probe_reaches_found (<[start := Some e']> s) cap k 0 Hc start 0 cap e' Hs Hc
                  (passes_zero _ _ _ _)) as Hf.
    rewrite (mod_first _ _ Hs) in Hf. rewrite Nat.add_0_r in Hf.
    eexists. apply Hf; [apply list_lookup_insert_eq; exact Hi|exact Hm].
  - destruct Hend as [Heq|Hfree]; [contradiction|].
    eexists. apply probe_reaches_found; try assumption; try lia.
    + apply passes_insert_ne; [exact Hpass|].
      intros j Hj Heq. destruct (Hpass j Hj) as (e0 & He0 & _).
      rewrite Heq in He0. exact (Hfree e0 He0).
    + apply list_lookup_insert_eq; exact Hi.
Qed.

(** After the probe of [k] found [e] at [i], replacing the value there keeps
    the same probe finding slot [i]. *)
Lemma probe_after_update (s : list slot) (cap : nat) (k : bytes) (start i it : nat)
    (e e' : entry) :
  0 < cap -> start < cap -> e_key e' = e_key e ->
  probe s cap k start 0 cap = Found i e it ->
  probe (<[i := Some e']> s) cap k start 0 cap = Found i e' it.
Proof.
  intros Hc Hs Hk Hp.
  destruct (proj1 (probe_path s cap k cap Hc start 0 Hs) i e it Hp)
    as (d & -> & Hd & -> & Hse & Hm & Hpass).
  simpl. apply probe_reaches_found; try assumption.
  - apply passes_insert_ne; [exact Hpass|].
    intros j Hj Heq. destruct (Hpass j Hj) as (e0 & He0 & Hm0).
    rewrite Heq, Hse in He0. injection He0 as <-. congruence.
  - apply list_lookup_insert_eq. eapply lookup_lt_Some; exact Hse.
  - rewrite (key_matches_same_key e' e k Hk). exact Hm.
Qed.

(** Insert, then get: a successful insert of [k] makes a following get of
    [k] return the value just inserted, whether [k] was new or present. *)
Lemma insert_get_spec (o : alloc_oracle) (t : hash_table) (k : bytes) (v : ptr)
    (t' : hash_table) (ev : list event) :
  length (slots t) = capacity t ->
  hash_table_insert o t (Some k) v = Done (0, t', ev) ->
  hash_table_get t' (Some k) = Done v.
Proof.
  intros Hlen H. unfold hash_table_insert in H.
  destruct (if load_exceeds (size t) (capacity t) (resize_threshold t)
            then (let* n := grow (capacity t) (resize_factor t) in hash_table_resize o t n)
            else Done (0, t, o)) as [[[rc t1] o1]|] eqn:Hc; simpl in H; [|discriminate].
  destruct rc as [|rc]; simpl in H; [|discriminate].
  pose proof (insert_check_length o t t1 o1 Hlen Hc) as Hlen1.
  destruct (probe_key t1 k) as [r|] eqn:Hp; simpl in H; [|discriminate].
  destruct (probe_key_done t1 k r Hp) as (Hcap & start & Hs & -> & Hpk).
  destruct (probe (slots t1) (capacity t1) k start 0 (capacity t1)) as [i e it|i it]
    eqn:Hpr.
  - injection H as <- _. unfold hash_table_get.
    erewrite Hpk by reflexivity. simpl.
    rewrite (probe_after_update _ _ _ _ _ _ e (mk_entry (e_key e) v) Hcap Hs eq_refl Hpr).
    reflexivity.
  - destruct (alloc o1) as [[|] o2]; simpl in H; [|discriminate].
    injection H as <- _. unfold hash_table_get.
    erewrite Hpk by reflexivity. simpl.
    destruct (probe_after_store _ _ k _ _ _ (mk_entry k v) Hcap Hs Hlen1 eq_refl Hpr)
      as [it' ->].
    reflexivity.
Qed.

(** Remove, then get: after a remove of [k], a get of [k] returns NULL,
    whether or not [k] was found, and even where another slot holds [k]. *)
Lemma remove_get_spec (t : hash_table) (k : bytes) (t' : hash_table) (ev : list event) :
  hash_table_remove t (Some k) = Done (t', ev) ->
  hash_table_get t' (Some k) = Done NULL.
Proof.
  intros H. unfold hash_table_remove in H.
  destruct (probe_key t k) as [r|] eqn:Hp; simpl in H; [|discriminate].
  destruct (probe_key_done t k r Hp) as (Hcap & start & Hs & -> & Hpk).
  destruct (probe (slots t) (capacity t) k start 0 (capacity t)) as [i e it|i it] eqn:Hpr.
  - injection H as <- _. unfold hash_table_get.
    erewrite Hpk by reflexivity. simpl.
    destruct (proj1 (probe_path _ _ k _ Hcap start 0 Hs) i e it Hpr)
      as (d & -> & Hd & -> & Hse & Hm & Hpass).
    rewrite (probe_reaches_free _ _ k d Hcap start 0 (capacity t) Hs ltac:(lia)).
    + reflexivity.
    + apply passes_insert_ne; [exact Hpass|].
      intros j Hj Heq. destruct (Hpass j Hj) as (e0 & He0 & Hm0).
      rewrite Heq, Hse in He0. injection He0 as <-. congruence.
    + intros e0. rewrite list_lookup_insert_eq; [discriminate|].
      eapply lookup_lt_Some; exact Hse.
  - injection H as <- _. unfold hash_table_get. rewrite Hp. simpl.
    reflexivity.
Qed.

Lemma mod_size_lt (a : N) (b idx : nat) : mod_size a b = Done idx -> 0 < b /\ idx < b.
Proof.
  unfold mod_size. destruct b as [|b]; [discriminate|].
  intros H. injection H as <-.
  assert (Hlt : (a mod N.of_nat (S b) < N.of_nat (S b))%N) by (apply N.mod_lt; lia).
  lia.
Qed.

Lemma length_entries_le (s : list slot) : length (entries s) <= length s.
Proof. induction s as [|[e|] s IH]; simpl; lia. Qed.

Lemma exists_free (s : list slot) :
  length (entries s) < length s -> exists p, s !! p = Some None.
Proof.
  induction s as [|[e|] s IH]; simpl; intros H.
  - lia.
  - destruct IH as [p Hp]; [lia|]. exists (S p). exact Hp.
  - exists 0. reflexivity.
Qed.

(** From any start, some slot of a table that is not full is reached by the
    linear probe within [cap] steps. *)
Lemma free_reachable (s : list slot) (cap idx : nat) :
  length s = cap -> idx < cap -> length (entries s) < cap ->
  exists j, j < cap /\ s !! ((idx + j) mod cap) = Some None.
Proof.
  intros Hlen Hidx Hn. destruct (exists_free s ltac:(lia)) as [p Hp].
  assert (Hpc : p < cap) by (rewrite <- Hlen; eapply lookup_lt_Some; exact Hp).
  destruct (decide (idx <= p)).
  - exists (p - idx). split; [lia|].
    replace (idx + (p - idx)) with p by lia. rewrite Nat.mod_small by exact Hpc. exact Hp.
  - exists (p + cap - idx). split; [lia|].
    replace (idx + (p + cap - idx)) with (p + cap) by lia.
    rewrite mod_full_turn by exact Hpc. exact Hp.
Qed.

Lemma find_free_spec (s : list slot) (cap rem : nat) :
  0 < cap -> length s = cap -> forall idx, idx < cap ->
  (exists j, j <= rem /\ s !! ((idx + j) mod cap) = Some None) ->
  find_free s cap idx rem < cap /\ s !! find_free s cap idx rem = Some None.
Proof.
  intros Hc Hlen. induction rem as [|rem IH]; intros idx Hidx (j & Hj & Hfree); simpl.
  - assert (j = 0) as -> by lia. rewrite (mod_first _ _ Hidx) in Hfree.
    rewrite Hfree. auto.
  - destruct (s !! idx) as [[e|]|] eqn:Hs.
    + destruct j as [|j].
      * rewrite (mod_first _ _ Hidx), Hs in Hfree. discriminate.
      * apply IH; [apply Nat.mod_upper_bound; lia|].
        exists j. split; [lia|]. rewrite mod_step by exact Hc. exact Hfree.
    + auto.
    + apply lookup_ge_None in Hs. change (length s <= idx) in Hs. lia.
Qed.

Lemma entries_insert_free (s : list slot) (i : nat) (e : entry) :
  s !! i = Some None -> entries (<[i := Some e]> s) ≡ₚ e :: entries s.
Proof.
  revert i. induction s as [|x s IH]; intros i Hi; [discriminate|].
  destruct i as [|i]; simpl in *.
  - injection Hi as ->. reflexivity.
  - destruct x as [e'|]; simpl.
    + rewrite (IH i Hi). apply Permutation_swap.
    + apply IH, Hi.
Qed.

Lemma length_entries_insert_free (s : list slot) (i : nat) (e : entry) :
  s !! i = Some None -> length (entries (<[i := Some e]> s)) = S (length (entries s)).
Proof. intros H. rewrite (entries_insert_free _ _ _ H). reflexivity. Qed.

(** The rehash loop moves every old entry into the new array and counts
    them, as long as the new array has room for all of them. *)
Lemma rehash_spec (cap : nat) (old : list slot) :
  forall acc n s' n',
  length acc = cap -> length (entries acc) + length (entries old) <= cap ->
  rehash cap old acc n = Done (s', n') ->
  entries s' ≡ₚ entries old ++ entries acc /\ n' = n + length (entries old).
Proof.
  induction old as [|[e|] old IH]; intros acc n s' n' Hlen Hroom H; simpl in *.
  - injection H as <- <-. split; [reflexivity|lia].
  - destruct (mod_size (hash_table_fnv_1a (e_key e)) cap) as [h|] eqn:Hh;
      simpl in H; [|discriminate].
    destruct (mod_size_lt _ _ _ Hh) as [Hc Hhc].
    destruct (free_reachable acc cap h Hlen Hhc ltac:(lia)) as (j & Hj & Hfree).
    destruct (find_free_spec acc cap cap Hc Hlen h Hhc
                ltac:(exists j; split; [lia|exact Hfree])) as [Hlt Hff].
    pose proof (length_entries_insert_free _ _ e Hff) as Hcount.
    edestruct IH as [Hperm ->]; [| |exact H|].
    { rewrite length_insert. exact Hlen. }
    { rewrite Hcount. lia. }
    split; [|lia].
    rewrite Hperm, (entries_insert_free _ _ _ Hff). simpl.
    symmetry. apply Permutation_middle.
  - apply (IH acc n s' n' Hlen Hroom H).
Qed.

Lemma entries_replicate_none (n : nat) : entries (replicate n None) = [].
Proof. induction n; simpl; auto. Qed.

(** A successful resize moves exactly the stored entries (as a multiset)
    into an array of the new capacity, sets [size] to their number and keeps
    the parameters. *)
Lemma resize_spec (o : alloc_oracle) (t : hash_table) (n : nat)
    (t1 : hash_table) (o1 : alloc_oracle) :
  length (slots t) = capacity t ->
  hash_table_resize o t n = Done (0, t1, o1) ->
  capacity t1 = n /\ length (slots t1) = n /\
  entries (slots t1) ≡ₚ entries (slots t) /\
  size t1 = length (entries (slots t)) /\
  resize_threshold t1 = resize_threshold t /\ resize_factor t1 = resize_factor t /\
  value_destructor t1 = value_destructor t.
Proof.
  intros Hlen H. unfold hash_table_resize in H.
  destruct (Nat.leb n (capacity t)) eqn:Hn; [discriminate|].
  apply Nat.leb_gt in Hn.
  destruct (alloc o) as [b1 oa]; destruct (alloc oa) as [b2 ob];
    destruct (alloc ob) as [b3 oc].
  destruct (negb (b1 && b2 && b3)); [discriminate|].
  destruct (rehash n (slots t) (replicate n None) 0) as [[s m]|] eqn:Hr; simpl in H;
    [|discriminate].
  injection H as <- _. simpl.
  destruct (rehash_spec n (slots t) (replicate n None) 0 s m
              ltac:(apply length_replicate)
              ltac:(rewrite entries_replicate_none; simpl;
                    pose proof (length_entries_le (slots t)); lia) Hr) as [Hperm ->].
  rewrite entries_replicate_none, app_nil_r in Hperm.
  repeat split; auto.
  rewrite (rehash_length _ _ _ _ _ _ Hr). apply length_replicate.
Qed.

Lemma entries_insert_length (s : list slot) (i : nat) (y x : slot) :
  s !! i = Some y ->
  length (entries (<[i := x]> s)) + length (entries [y]) =
  length (entries s) + length (entries [x]).
Proof.
  revert i. induction s as [|z s IH]; intros i Hi; [discriminate|].
  destruct i as [|i]; simpl in *.
  - injection Hi as ->. destruct x, y; simpl; lia.
  - specialize (IH i Hi). destruct z; simpl; lia.
Qed.

Lemma all_occupied (s : list slot) :
  (forall p, p < length s -> exists e, s !! p = Some (Some e)) ->
  length (entries s) = length s.
Proof.
  induction s as [|x s IH]; simpl; intros H; [reflexivity|].
  destruct (H 0 ltac:(lia)) as [e He]. simpl in He. injection He as ->. simpl.
  f_equal. apply IH. intros p Hp. apply (H (S p)). lia.
Qed.

Lemma mod_cover (cap idx p : nat) :
  idx < cap -> p < cap -> exists j, j < cap /\ (idx + j) mod cap = p.
Proof.
  intros Hi Hp. destruct (decide (idx <= p)).
  - exists (p - idx). split; [lia|].
    replace (idx + (p - idx)) with p by lia. apply Nat.mod_small, Hp.
  - exists (p + cap - idx). split; [lia|].
    replace (idx + (p + cap - idx)) with (p + cap) by lia. apply mod_full_turn, Hp.
Qed.

(** A probe that passes [cap] slots without stopping has seen a full table. *)
Lemma full_passes (s : list slot) (cap : nat) (k : bytes) (start : nat) :
  length s = cap -> start < cap -> passes s cap k start cap -> length (entries s) = cap.
Proof.
  intros Hlen Hs Hp. rewrite <- Hlen. apply all_occupied. intros p Hpl.
  destruct (mod_cover cap start p Hs ltac:(lia)) as (j & Hj & <-).
  destruct (Hp j Hj) as (e & He & _). exists e. exact He.
Qed.

(** The table an insert works on after its load check is well formed,
    holds the same entries with the same parameters, and has a free slot
    when the check succeeded. *)
Lemma insert_check_spec (o : alloc_oracle) (t : hash_table) (rc : nat)
    (t1 : hash_table) (o1 : alloc_oracle) :
  (resize_threshold t < 1)%Q -> well_formed t ->
  (if load_exceeds (size t) (capacity t) (resize_threshold t)
   then (let* n := grow (capacity t) (resize_factor t) in hash_table_resize o t n)
   else Done (0, t, o)) = Done (rc, t1, o1) ->
  well_formed t1 /\ (entries (slots t1) ≡ₚ entries (slots t)) /\
  resize_threshold t1 = resize_threshold t /\ value_destructor t1 = value_destructor t /\
  (rc = 0 -> size t1 < capacity t1).
Proof.
  intros Hthr [Hlen Hsize] Hc.
  destruct (load_exceeds (size t) (capacity t) (resize_threshold t)) eqn:Hl.
  - destruct (grow (capacity t) (resize_factor t)) as [n|]; cbn [obind] in Hc;
      [|discriminate].
    destruct rc as [|rc].
    + destruct (resize_spec _ _ _ _ _ Hlen Hc)
        as (Hcap & Hlen1 & Hperm & Hs1 & Hthr1 & _ & Hd1).
      destruct (resize_success _ _ _ _ _ Hc) as (Hlt & _ & _).
      pose proof (length_entries_le (slots t)).
      split; [split|]; [congruence| |].
      * rewrite Hs1. symmetry. apply Permutation_length, Hperm.
      * split; [exact Hperm|]. split; [exact Hthr1|]. split; [exact Hd1|lia].
    + rewrite (resize_failure _ _ _ _ _ _ Hc ltac:(lia)).
      split; [split; assumption|]. split; [reflexivity|]. split; [reflexivity|].
      split; [reflexivity|lia].
  - injection Hc as <- <- _.
    pose proof (load_exceeds_false_room _ _ _ Hl Hthr).
    split; [split; assumption|]. split; [reflexivity|]. split; [reflexivity|].
    split; [reflexivity|lia].
Qed.

(** Insert keeps the table well formed when the resize threshold is below
    1: [size] keeps counting the stored entries, in every outcome. *)
Lemma insert_well_formed_spec (o : alloc_oracle) (t : hash_table) (k : bytes)
    (v : ptr) (rc : nat) (t' : hash_table) (ev : list event) :
  (resize_threshold t < 1)%Q -> well_formed t ->
  hash_table_insert o t (Some k) v = Done (rc, t', ev) ->
  well_formed t'.
Proof.
  intros Hthr Hwf H. unfold hash_table_insert in H.
  destruct (if load_exceeds (size t) (capacity t) (resize_threshold t)
            then (let* n := grow (capacity t) (resize_factor t) in hash_table_resize o t n)
            else Done (0, t, o)) as [[[rc1 t1] o1]|] eqn:Hc; simpl in H; [|discriminate].
  destruct (insert_check_spec _ _ _ _ _ Hthr Hwf Hc) as ([Hlen1 Hs1] & _ & _ & _ & Hroom).
  destruct rc1 as [|rc1]; simpl in H; [|injection H as _ <- _; split; assumption].
  specialize (Hroom eq_refl).
  destruct (probe_key t1 k) as [r|] eqn:Hp; simpl in H; [|discriminate].
  destruct (probe_key_done t1 k r Hp) as (Hcap & start & Hs & -> & _).
  destruct (probe (slots t1) (capacity t1) k start 0 (capacity t1)) as [i e it|i it]
    eqn:Hpr.
  - injection H as _ <- _.
    destruct (proj1 (probe_path _ _ k _ Hcap start 0 Hs) i e it Hpr)
      as (d & _ & _ & _ & Hse & _).
    pose proof (entries_insert_length _ _ _ (Some (mk_entry (e_key e) v)) Hse) as H.
    split; simpl; [rewrite length_insert; exact Hlen1|].
    rewrite Hs1. apply (Nat.add_cancel_r _ _ 1). symmetry. exact H.
  - destruct (alloc o1) as [[|] o2]; simpl in H;
      [|injection H as _ <- _; split; assumption].
    injection H as _ <- _.
    destruct (proj2 (probe_path _ _ k _ Hcap start 0 Hs) i it Hpr)
      as (d & _ & Hd & -> & Hpass & Hend).
    assert (Hi : (start + d) mod capacity t1 < length (slots t1))
      by (rewrite Hlen1; apply Nat.mod_upper_bound; lia).
    destruct Hend as [->|Hfree].
    + pose proof (full_passes _ _ _ _ Hlen1 Hs Hpass). lia.
    + destruct (slots t1 !! ((start + d) mod capacity t1)) as [[e|]|] eqn:Hse.
      * exfalso. exact (Hfree e eq_refl).
      * pose proof (entries_insert_length _ _ _ (Some (mk_entry k v)) Hse) as H.
        split; simpl; [rewrite length_insert; exact Hlen1|].
        rewrite Hs1. simpl in H. rewrite Nat.add_0_r in H. rewrite <- Nat.add_1_r.
        symmetry. exact H.
      * apply lookup_ge_None in Hse. change (length (slots t1) <= (start + d) mod capacity t1) in Hse.
        lia.
Qed.

Lemma entries_remove (s : list slot) (i : nat) (e : entry) :
  s !! i = Some (Some e) -> entries s ≡ₚ e :: entries (<[i := None]> s).
Proof.
  revert i. induction s as [|x s IH]; intros i Hi; [discriminate|].
  destruct i as [|i]; simpl in *.
  - injection Hi as ->. reflexivity.
  - destruct x as [e'|]; simpl.
    + rewrite (IH i Hi). apply Permutation_swap.
    + apply IH, Hi.
Qed.

Lemma entries_update (s : list slot) (i : nat) (e e' : entry) :
  s !! i = Some (Some e) -> entries (<[i := Some e']> s) ≡ₚ e' :: entries (<[i := None]> s).
Proof.
  intros Hi.
  assert (E : <[i := Some e']> s = <[i := Some e']> (<[i := None]> s))
    by (symmetry; apply list_insert_insert_eq).
  rewrite E. apply entries_insert_free. apply list_lookup_insert_eq.
  eapply lookup_lt_Some; exact Hi.
Qed.

(** In a table that is not full, a probe stops only at an empty slot. *)
Lemma stopped_free (s : list slot) (cap : nat) (k : bytes) (start i it : nat) :
  0 < cap -> start < cap -> length s = cap -> length (entries s) < cap ->
  probe s cap k start 0 cap = Stopped i it -> s !! i = Some None.
Proof.
  intros Hc Hs Hlen Hn Hp.
  destruct (proj2 (probe_path s cap k cap Hc start 0 Hs) i it Hp)
    as (d & _ & Hd & -> & Hpass & Hend).
  destruct Hend as [->|Hfree].
  - pose proof (full_passes _ _ _ _ Hlen Hs Hpass). lia.
  - destruct (s !! ((start + d) mod cap)) as [[e|]|] eqn:Hse.
    + exfalso. exact (Hfree e eq_refl).
    + reflexivity.
    + apply lookup_ge_None in Hse. change (length s <= (start + d) mod cap) in Hse.
      pose proof (Nat.mod_upper_bound (start + d) cap ltac:(lia)). lia.
Qed.

(** What a remove does to the stored entries. *)
Lemma remove_spec (t : hash_table) (k : bytes) (t' : hash_table) (ev : list event) :
  hash_table_remove t (Some k) = Done (t', ev) ->
  (t' = t /\ ev = []) \/
  (exists e, e_key e = k /\ entries (slots t) ≡ₚ e :: entries (slots t') /\
     size t' = Nat.pred (size t) /\ capacity t' = capacity t /\
     length (slots t') = length (slots t) /\
     ev = [FreeKey (e_key e); release t (e_value e)]).
Proof.
  unfold hash_table_remove.
  destruct (probe_key t k) as [[i e it|i it]|] eqn:Hp; simpl; [|intros H|discriminate].
  - intros H. injection H as <- <-. right. exists e.
    destruct (probe_key_found _ _ _ _ _ Hp) as [Hse Hk].
    split; [exact Hk|]. split; [apply entries_remove, Hse|].
    split; [reflexivity|]. split; [reflexivity|].
    split; [apply length_insert|reflexivity].
  - injection H as <- <-. left. auto.
Qed.

Lemma clear_slots_spec (custom : bool) (s : list slot) :
  clear_slots custom s =
  (replicate (length s) None,
   flat_map (fun e => [FreeKey (e_key e); ReleaseValue (e_value e) custom]) (entries s)).
Proof.
  induction s as [|[e|] s IH]; simpl; [reflexivity| |]; rewrite IH; reflexivity.
Qed.

Lemma released_flat_map (custom : bool) (l : list entry) :
  released (flat_map (fun e => [FreeKey (e_key e); ReleaseValue (e_value e) custom]) l) =
  map e_value l.
Proof. induction l as [|e l IH]; simpl; [reflexivity|]. rewrite IH. reflexivity. Qed.

(** What a successful insert does to the stored entries, in a well-formed
    table whose threshold is below 1: it adds the entry, or replaces the
    value of the entry holding the key and releases the old value. *)
Lemma insert_entries_spec (o : alloc_oracle) (t : hash_table) (k : bytes) (v : ptr)
    (t' : hash_table) (ev : list event) :
  (resize_threshold t < 1)%Q -> well_formed t ->
  hash_table_insert o t (Some k) v = Done (0, t', ev) ->
  (ev = [] /\ entries (slots t') ≡ₚ mk_entry k v :: entries (slots t)) \/
  (exists e rest, e_key e = k /\ entries (slots t) ≡ₚ e :: rest /\
     entries (slots t') ≡ₚ mk_entry k v :: rest /\ ev = [release t (e_value e)]).
Proof.
  intros Hthr Hwf H. unfold hash_table_insert in H.
  destruct (if load_exceeds (size t) (capacity t) (resize_threshold t)
            then (let* n := grow (capacity t) (resize_factor t) in hash_table_resize o t n)
            else Done (0, t, o)) as [[[rc1 t1] o1]|] eqn:Hc; simpl in H; [|discriminate].
  destruct (insert_check_spec _ _ _ _ _ Hthr Hwf Hc)
    as ([Hlen1 Hs1] & Hperm1 & _ & Hd1 & Hroom).
  destruct rc1 as [|rc1]; simpl in H; [|discriminate].
  specialize (Hroom eq_refl).
  destruct (probe_key t1 k) as [r|] eqn:Hp; simpl in H; [|discriminate].
  destruct (probe_key_done t1 k r Hp) as (Hcap & start & Hs & -> & _).
  destruct (probe (slots t1) (capacity t1) k start 0 (capacity t1)) as [i e it|i it]
    eqn:Hpr.
  - injection H as <- <-. right.
    destruct (probe_found _ _ _ _ _ _ _ _ _ Hpr) as [Hse Hk].
    exists e, (entries (<[i := None]> (slots t1))).
    split; [exact Hk|]. split.
    + rewrite <- Hperm1. apply entries_remove, Hse.
    + split; [simpl; rewrite Hk; apply entries_update with e; exact Hse|].
      unfold release. rewrite Hd1. reflexivity.
  - destruct (alloc o1) as [[|] o2]; simpl in H; [|discriminate].
    injection H as <- <-. left. split; [reflexivity|]. simpl.
    rewrite (entries_insert_free _ _ _
               (stopped_free _ _ _ _ _ _ Hcap Hs Hlen1 ltac:(lia) Hpr)).
    rewrite Hperm1. reflexivity.
Qed.

Lemma insert_failure_events (o : alloc_oracle) (t : hash_table) (k : bytes) (v : ptr)
    (rc : nat) (t' : hash_table) (ev : list event) :
  hash_table_insert o t (Some k) v = Done (rc, t', ev) -> rc <> 0 -> ev = [].
Proof.
  unfold hash_table_insert.
  destruct (if load_exceeds (size t) (capacity t) (resize_threshold t)
            then (let* n := grow (capacity t) (resize_factor t) in hash_table_resize o t n)
            else Done (0, t, o)) as [[[rc1 t1] o1]|]; simpl; [|discriminate].
  destruct rc1 as [|rc1]; simpl; [|intros H; injection H as _ _ <-; reflexivity].
  destruct (probe_key t1 k) as [[i e it|i it]|]; simpl; [| |discriminate].
  - intros H. injection H as <- _ _. lia.
  - destruct (alloc o1) as [[|] o2]; simpl; intros H; injection H as <- _ <-;
      [lia|reflexivity].
Qed.

Lemma strlen_firstn (s : bytes) : strlen (firstn (S (strlen s)) s) = strlen s.
Proof.
  induction s as [|b s IH]; simpl; [reflexivity|].
  destruct (Byte.eqb b Byte.x00) eqn:Hb; simpl; rewrite ?Hb; [reflexivity|].
  rewrite IH. reflexivity.
Qed.

Lemma firstn_strlen_terminated (s : bytes) :
  In Byte.x00 s -> firstn (S (strlen s)) s = firstn (strlen s) s ++ [Byte.x00].
Proof.
  induction s as [|b s IH]; simpl; [contradiction|]. intros Hin.
  destruct (Byte.eqb b Byte.x00) eqn:Hb.
  - apply Byte.byte_dec_bl in Hb. subst b. reflexivity.
  - destruct Hin as [->|Hin]; [discriminate|]. simpl. rewrite (IH Hin). reflexivity.
Qed.

Lemma strlen_no_nul (s : bytes) : Forall (fun b => b <> Byte.x00) (firstn (strlen s) s).
Proof.
  induction s as [|b s IH]; simpl; [constructor|].
  destruct (Byte.eqb b Byte.x00) eqn:Hb; simpl; [constructor|].
  constructor; [apply Byte.eqb_false, Hb|exact IH].
Qed.

Lemma string_key_idem (s : bytes) : string_key (string_key s) = string_key s.
Proof.
  unfold string_key. rewrite strlen_firstn, firstn_firstn, Nat.min_id. reflexivity.
Qed.

Lemma clear_spec (t : hash_table) :
  hash_table_clear t =
  (set_slots_size t (replicate (length (slots t)) None) 0,
   flat_map (fun e => [FreeKey (e_key e); release t (e_value e)]) (entries (slots t))).
Proof. unfold hash_table_clear. rewrite clear_slots_spec. reflexivity. Qed.

Lemma check_threshold (o : alloc_oracle) (t : hash_table) (rc : nat) (t1 : hash_table)
    (o1 : alloc_oracle) :
  (if load_exceeds (size t) (capacity t) (resize_threshold t)
   then (let* n := grow (capacity t) (resize_factor t) in hash_table_resize o t n)
   else Done (0, t, o)) = Done (rc, t1, o1) ->
  resize_threshold t1 = resize_threshold t.
Proof.
  destruct (load_exceeds (size t) (capacity t) (resize_threshold t)).
  - destruct (grow (capacity t) (resize_factor t)) as [n|]; cbn [obind];
      [|intros Hu; discriminate Hu].
    intros Hc. destruct rc as [|rc].
    + apply (resize_success _ _ _ _ _ Hc).
    + rewrite (resize_failure _ _ _ _ _ _ Hc ltac:(lia)). reflexivity.
  - intros H. injection H as _ <- _. reflexivity.
Qed.

Lemma insert_threshold (o : alloc_oracle) (t : hash_table) (k : bytes) (v : ptr)
    (rc : nat) (t' : hash_table) (ev : list event) :
  hash_table_insert o t (Some k) v = Done (rc, t', ev) ->
  resize_threshold t' = resize_threshold t.
Proof.
  unfold hash_table_insert.
  destruct (if load_exceeds (size t) (capacity t) (resize_threshold t)
            then (let* n := grow (capacity t) (resize_factor t) in hash_table_resize o t n)
            else Done (0, t, o)) as [[[rc1 t1] o1]|] eqn:Hc; simpl; [|discriminate].
  pose proof (check_threshold _ _ _ _ _ Hc) as Ht.
  destruct rc1 as [|rc1]; simpl; [|intros H; injection H as _ <- _; exact Ht].
  destruct (probe_key t1 k) as [[i e it|i it]|]; simpl; [| |discriminate].
  - intros H. injection H as _ <- _. exact Ht.
  - destruct (alloc o1) as [[|] o2]; simpl; intros H; injection H as _ <- _; exact Ht.
Qed.

Lemma remove_well_formed (t : hash_table) (k : bytes) (t' : hash_table) (ev : list event) :
  well_formed t -> hash_table_remove t (Some k) = Done (t', ev) -> well_formed t'.
Proof.
  intros [Hlen Hsize] H.
  destruct (remove_spec _ _ _ _ H) as [[-> _]|(e & _ & Hperm & Hs & Hc & Hl & _)].
  - split; assumption.
  - apply Permutation_length in Hperm. simpl in Hperm. split; [congruence|lia].
Qed.

Lemma clear_well_formed (t : hash_table) :
  length (slots t) = capacity t -> well_formed (fst (hash_table_clear t)).
Proof.
  intros Hlen. rewrite clear_spec. split; simpl.
  - rewrite length_replicate. exact Hlen.
  - rewrite entries_replicate_none. reflexivity.
Qed.

Lemma remove_threshold (t : hash_table) (k : bytes) (t' : hash_table) (ev : list event) :
  hash_table_remove t (Some k) = Done (t', ev) -> resize_threshold t' = resize_threshold t.
Proof.
  unfold hash_table_remove.
  destruct (probe_key t k) as [[i e it|i it]|]; simpl; intros H; try discriminate;
    injection H as <- _; reflexivity.
Qed.

Lemma create_well_formed (o : alloc_oracle) (cap : nat) (thr factor : Q) (d : bool)
    (t : hash_table) :
  hash_table_create_with_parameters_and_destructor o cap thr factor d = Done (Created t) ->
  well_formed t /\ entries (slots t) = [] /\ capacity t = cap /\ resize_threshold t = thr.
Proof.
  unfold hash_table_create_with_parameters_and_destructor.
  destruct (alloc o) as [[|] o1]; simpl; [|discriminate].
  destruct (alloc o1) as [b1 o2]; destruct (alloc o2) as [b2 o3];
    destruct (alloc o3) as [b3 o4].
  destruct (b1 && b2 && b3); intros H; [injection H as <-|discriminate].
  split; [split|]; simpl.
  - apply length_replicate.
  - rewrite entries_replicate_none. reflexivity.
  - rewrite entries_replicate_none. auto.
Qed.

Lemma reachable_well_formed_spec (t : hash_table) :
  reachable t -> (resize_threshold t < 1)%Q -> well_formed t.
Proof.
  induction 1 as [o cap thr factor d t Hc|o t k v rc t' ev Hr IH Hi|t k t' ev Hr IH Hm|t Hr IH];
    intros Hthr.
  - apply (create_well_formed _ _ _ _ _ _ Hc).
  - rewrite (insert_threshold _ _ _ _ _ _ _ Hi) in Hthr.
    exact (insert_well_formed_spec _ _ _ _ _ _ _ Hthr (IH Hthr) Hi).
  - rewrite (remove_threshold _ _ _ _ Hm) in Hthr.
    exact (remove_well_formed _ _ _ _ (IH Hthr) Hm).
  - rewrite clear_spec in Hthr. simpl in Hthr.
    apply clear_well_formed, (IH Hthr).
Qed.

(** Below [2^24] the capacity converts to float exactly, so a factor in
    [[0, 1]] cannot make [(size_t)(capacity * factor)] exceed it. *)
Lemma grow_le_capacity (cap : nat) (factor : Q) :
  (Z.of_nat cap < 2 ^ 24)%Z -> (0 <= factor)%Q -> (factor <= 1)%Q ->
  exists n, grow cap factor = Done n /\ n <= cap.
Proof.
  intros Hc Hf0 Hf1. unfold grow.
  set (p := round32 (float_of_nat cap * factor)).
  assert (Hcap0 : (0 <= inject_Z (Z.of_nat cap))%Q)
    by (change 0%Q with (inject_Z 0); rewrite <- Zle_Qle; lia).
  assert (Hx : (float_of_nat cap * factor <= inject_Z (Z.of_nat cap))%Q).
  { rewrite (float_of_nat_exact cap Hc), Qmult_comm.
    rewrite <- (Qmult_1_l (inject_Z (Z.of_nat cap))) at 2.
    apply Qmult_le_compat_r; assumption. }
  assert (Hx0 : (0 <= float_of_nat cap * factor)%Q)
    by (apply Qmult_le_0_compat; [apply round32_nonneg, Hcap0 | exact Hf0]).
  assert (Hp0 : (0 <= p)%Q) by (apply round32_nonneg, Hx0).
  assert (Hp1 : (p <= inject_Z (Z.of_nat cap))%Q).
  { rewrite <- (round32_int (Z.of_nat cap)) by lia. apply round32_mono; assumption. }
  destruct (Qle_bool p (-1)) eqn:E1.
  { apply Qle_bool_iff in E1. exfalso. lra. }
  destruct (Qle_bool (inject_Z (2 ^ 64)) p) eqn:E2.
  { apply Qle_bool_iff in E2. exfalso.
    assert (E3 : (inject_Z (2 ^ 64) <= inject_Z (Z.of_nat cap))%Q) by lra.
    rewrite <- Zle_Qle in E3. lia. }
  eexists. split; [reflexivity|].
  pose proof (Qfloor_resp_le _ _ Hp1) as Hz. rewrite Qfloor_Z in Hz. lia.
Qed.

Lemma in_entries_lookup (s : list slot) (i : nat) (e : entry) :
  s !! i = Some (Some e) -> In e (entries s).
Proof.
  revert i. induction s as [|x s IH]; intros i Hi; [discriminate|].
  destruct i as [|i]; simpl in *.
  - injection Hi as ->. left. reflexivity.
  - destruct x; [right|]; apply (IH i Hi).
Qed.

(** In a full table, when the load check lets an insert of a new key
    through, the probe gives up after [capacity] steps and the insert
    writes over an occupied slot. *)
Lemma full_table_insert_spec (o : alloc_oracle) (o' : alloc_oracle) (t : hash_table)
    (k : bytes) (v : ptr) :
  (forall p, p < capacity t -> exists e, slots t !! p = Some (Some e)) ->
  (forall e, In e (entries (slots t)) -> e_key e <> k) ->
  load_exceeds (size t) (capacity t) (resize_threshold t) = false ->
  alloc o = (true, o') ->
  exists i e, slots t !! i = Some (Some e) /\
    hash_table_insert o t (Some k) v =
    Done (0, set_slots_size t (<[i := Some (mk_entry k v)]> (slots t)) (S (size t)), []).
Proof.
  intros Hfull Hnew Hl Ha. unfold hash_table_insert. rewrite Hl. simpl.
  destruct (probe_key t k) as [r|] eqn:Hp.
  2:{ exfalso. destruct (load_exceeds_false _ _ _ Hl) as [Hc _].
      unfold probe_key, mod_size in Hp. destruct (capacity t); [lia|discriminate]. }
  destruct (probe_key_done t k r Hp) as (Hcap & start & Hs & -> & _).
  destruct (probe (slots t) (capacity t) k start 0 (capacity t)) as [i e it|i it]
    eqn:Hpr; simpl.
  - exfalso. destruct (probe_found _ _ _ _ _ _ _ _ _ Hpr) as [Hse Hk].
    exact (Hnew e (in_entries_lookup _ _ _ Hse) Hk).
  - destruct (proj2 (probe_path _ _ k _ Hcap start 0 Hs) i it Hpr)
      as (d & _ & _ & -> & _).
    destruct (Hfull ((start + d) mod capacity t)) as [e He];
      [apply Nat.mod_upper_bound; lia|].
    exists ((start + d) mod capacity t), e. split; [exact He|].
    rewrite Ha. reflexivity.
Qed.

(** * Further properties of the table operations *)

(** Insert, then get and contains: after a successful insert of [k] with
    value [v], a get of [k] returns [v] and contains reports whether [v] is
    non-NULL, whether [k] was new or already present. *)
Theorem insert_then_get (o : alloc_oracle) (t : hash_table) (k : bytes) (v : ptr)
    (t' : hash_table) (ev : list event) :
  length (slots t) = capacity t ->
  hash_table_insert o t (Some k) v = Done (0, t', ev) ->
  hash_table_get t' (Some k) = Done v /\
  hash_table_contains t' (Some k) = Done (if N.eqb v NULL then 0 else 1).
Proof.
  intros Hlen H. pose proof (insert_get_spec o t k v t' ev Hlen H) as Hg.
  split; [exact Hg|]. unfold hash_table_contains. rewrite Hg. reflexivity.
Qed.

Lemma insert_then_get_witness :
  exists t0 t1 t' ev,
    hash_table_create [] = Done (Created t0) /\ run_insert t0 key_a 1 = Done t1 /\
    length (slots t1) = capacity t1 /\
    hash_table_insert [] t1 (Some key_b) 2 = Done (0, t', ev) /\
    (hash_table_get t' (Some key_b) = Done 2%N /\
     hash_table_contains t' (Some key_b) = Done (if N.eqb 2 NULL then 0 else 1)).
Proof.
  eexists _, _, _, _. split; [reflexivity|]. split; [vm_compute; reflexivity|].
  match goal with
  | |- ?A /\ ?B /\ _ =>
      assert (H1 : A) by (vm_compute; reflexivity);
      assert (H2 : B) by (vm_compute; reflexivity);
      split; [exact H1|]; split; [exact H2|];
      exact (insert_then_get _ _ _ _ _ _ H1 H2)
  end.
Defined.

(** Remove, then get and contains: after a remove of [k], a get of [k]
    returns NULL and contains returns 0, whether or not [k] was found, and
    even where another slot further on holds [k]. *)
Theorem remove_then_get (t : hash_table) (k : bytes) (t' : hash_table) (ev : list event) :
  hash_table_remove t (Some k) = Done (t', ev) ->
  hash_table_get t' (Some k) = Done NULL /\ hash_table_contains t' (Some k) = Done 0.
Proof.
  intros H. pose proof (remove_get_spec t k t' ev H) as Hg.
  split; [exact Hg|]. unfold hash_table_contains. rewrite Hg. reflexivity.
Qed.

Lemma remove_then_get_witness :
  exists t0 t1 t2 t' ev,
    hash_table_create [] = Done (Created t0) /\ run_insert t0 key_a 1 = Done t1 /\
    run_insert t1 key_b 2 = Done t2 /\
    hash_table_remove t2 (Some key_a) = Done (t', ev) /\
    (hash_table_get t' (Some key_a) = Done NULL /\
     hash_table_contains t' (Some key_a) = Done 0).
Proof.
  eexists _, _, _, _, _. split; [reflexivity|].
  split; [vm_compute; reflexivity|]. split; [vm_compute; reflexivity|].
  match goal with
  | |- ?A /\ _ =>
      assert (H : A) by (vm_compute; reflexivity);
      split; [exact H|exact (remove_then_get _ _ _ _ H)]
  end.
Defined.

(** A successful resize moves exactly the stored entries (as a multiset)
    into an array of the new capacity, sets [size] to their number and
    keeps the threshold, the factor and the destructor. *)
Theorem resize_keeps_entries (o : alloc_oracle) (t : hash_table) (n : nat)
    (t1 : hash_table) (o1 : alloc_oracle) :
  length (slots t) = capacity t ->
  hash_table_resize o t n = Done (0, t1, o1) ->
  capacity t1 = n /\ length (slots t1) = n /\
  entries (slots t1) ≡ₚ entries (slots t) /\
  size t1 = length (entries (slots t)) /\
  resize_threshold t1 = resize_threshold t /\ resize_factor t1 = resize_factor t /\
  value_destructor t1 = value_destructor t.
Proof. apply resize_spec. Qed.

Lemma resize_keeps_entries_witness :
  exists t0 t1 t2 t' o',
    hash_table_create [] = Done (Created t0) /\ run_insert t0 key_a 1 = Done t1 /\
    run_insert t1 key_b 2 = Done t2 /\
    length (slots t2) = capacity t2 /\ hash_table_resize [] t2 32 = Done (0, t', o') /\
    (capacity t' = 32 /\ length (slots t') = 32 /\
     entries (slots t') ≡ₚ entries (slots t2) /\
     size t' = length (entries (slots t2)) /\
     resize_threshold t' = resize_threshold t2 /\ resize_factor t' = resize_factor t2 /\
     value_destructor t' = value_destructor t2).
Proof.
  eexists _, _, _, _, _. split; [reflexivity|].
  split; [vm_compute; reflexivity|]. split; [vm_compute; reflexivity|].
  match goal with
  | |- ?A /\ ?B /\ _ =>
      assert (H1 : A) by (vm_compute; reflexivity);
      assert (H2 : B) by (vm_compute; reflexivity);
      split; [exact H1|]; split; [exact H2|];
      exact (resize_keeps_entries _ _ _ _ _ H1 H2)
  end.
Defined.

(** Insert keeps the table well formed (one slot per unit of capacity,
    [size] equal to the number of stored entries) when the resize
    threshold is below 1, whatever the outcome of the insert.  (With a
    threshold of 1 the single precision load check can let an insert into
    a full table through.) *)
Theorem insert_keeps_well_formed (o : alloc_oracle) (t : hash_table) (k : bytes)
    (v : ptr) (rc : nat) (t' : hash_table) (ev : list event) :
  (resize_threshold t < 1)%Q -> well_formed t ->
  hash_table_insert o t (Some k) v = Done (rc, t', ev) ->
  well_formed t'.
Proof. apply insert_well_formed_spec. Qed.

Lemma insert_keeps_well_formed_witness :
  exists t0 t1 t' ev,
    hash_table_create [] = Done (Created t0) /\ run_insert t0 key_a 1 = Done t1 /\
    (resize_threshold t1 < 1)%Q /\ well_formed t1 /\
    hash_table_insert [] t1 (Some key_b) 2 = Done (0, t', ev) /\ well_formed t'.
Proof.
  eexists _, _, _, _. split; [reflexivity|]. split; [vm_compute; reflexivity|].
  assert (Hq : (1 # 2 < 1)%Q) by reflexivity.
  match goal with
  | |- ?A /\ ?B /\ ?C /\ _ =>
      assert (H1 : A) by exact Hq;
      assert (H2 : B) by (split; vm_compute; reflexivity);
      assert (H3 : C) by (vm_compute; reflexivity);
      split; [exact H1|]; split; [exact H2|]; split; [exact H3|];
      exact (insert_keeps_well_formed _ _ _ _ _ _ _ H1 H2 H3)
  end.
Defined.

(** What a successful insert does to the stored entries, in a well-formed
    table whose threshold is below 1: either it adds the entry [(k, v)]
    and releases nothing, or it replaces the value of one entry holding [k]
    and releases that entry's old value, through the destructor if the
    table has one. *)
Theorem insert_adds_or_replaces (o : alloc_oracle) (t : hash_table) (k : bytes) (v : ptr)
    (t' : hash_table) (ev : list event) :
  (resize_threshold t < 1)%Q -> well_formed t ->
  hash_table_insert o t (Some k) v = Done (0, t', ev) ->
  (ev = [] /\ entries (slots t') ≡ₚ mk_entry k v :: entries (slots t)) \/
  (exists e rest, e_key e = k /\ entries (slots t) ≡ₚ e :: rest /\
     entries (slots t') ≡ₚ mk_entry k v :: rest /\ ev = [release t (e_value e)]).
Proof. apply insert_entries_spec. Qed.

Lemma insert_adds_or_replaces_witness :
  exists t0 t1 t' ev,
    hash_table_create [] = Done (Created t0) /\ run_insert t0 key_a 1 = Done t1 /\
    (resize_threshold t1 < 1)%Q /\ well_formed t1 /\
    hash_table_insert [] t1 (Some key_a) 2 = Done (0, t', ev) /\
    ((ev = [] /\ entries (slots t') ≡ₚ mk_entry key_a 2 :: entries (slots t1)) \/
     (exists e rest, e_key e = key_a /\ entries (slots t1) ≡ₚ e :: rest /\
        entries (slots t') ≡ₚ mk_entry key_a 2 :: rest /\ ev = [release t1 (e_value e)])).
Proof.
  eexists _, _, _, _. split; [reflexivity|]. split; [vm_compute; reflexivity|].
  assert (Hq : (1 # 2 < 1)%Q) by reflexivity.
  match goal with
  | |- ?A /\ ?B /\ ?C /\ _ =>
      assert (H1 : A) by exact Hq;
      assert (H2 : B) by (split; vm_compute; reflexivity);
      assert (H3 : C) by (vm_compute; reflexivity);
      split; [exact H1|]; split; [exact H2|]; split; [exact H3|];
      exact (insert_adds_or_replaces _ _ _ _ _ _ H1 H2 H3)
  end.
Defined.

(** What a remove does: nothing when the probe does not find the key;
    otherwise it takes one entry holding the key out of the table,
    decrements [size], frees the key and releases the value. *)
Theorem remove_takes_out_entry (t : hash_table) (k : bytes) (t' : hash_table)
    (ev : list event) :
  hash_table_remove t (Some k) = Done (t', ev) ->
  (t' = t /\ ev = []) \/
  (exists e, e_key e = k /\ entries (slots t) ≡ₚ e :: entries (slots t') /\
     size t' = Nat.pred (size t) /\ capacity t' = capacity t /\
     length (slots t') = length (slots t) /\
     ev = [FreeKey (e_key e); release t (e_value e)]).
Proof. apply remove_spec. Qed.

Lemma remove_takes_out_entry_witness :
  exists t0 t1 t' ev,
    hash_table_create [] = Done (Created t0) /\ run_insert t0 key_a 1 = Done t1 /\
    hash_table_remove t1 (Some key_a) = Done (t', ev) /\
    ((t' = t1 /\ ev = []) \/
     (exists e, e_key e = key_a /\ entries (slots t1) ≡ₚ e :: entries (slots t') /\
        size t' = Nat.pred (size t1) /\ capacity t' = capacity t1 /\
        length (slots t') = length (slots t1) /\
        ev = [FreeKey (e_key e); release t1 (e_value e)])).
Proof.
  eexists _, _, _, _. split; [reflexivity|]. split; [vm_compute; reflexivity|].
  match goal with
  | |- ?A /\ _ =>
      assert (H : A) by (vm_compute; reflexivity);
      split; [exact H|exact (remove_takes_out_entry _ _ _ _ H)]
  end.
Defined.

(** Every table a program builds from a successful creation by inserts,
    removes and clears, with a resize threshold below 1, has one slot
    per unit of capacity and a [size] equal to the number of entries. *)
Theorem reachable_well_formed (t : hash_table) :
  reachable t -> (resize_threshold t < 1)%Q ->
  size t = length (entries (slots t)) /\ length (slots t) = capacity t.
Proof.
  intros Hr Hthr. destruct (reachable_well_formed_spec t Hr Hthr) as [Hl Hs]. auto.
Qed.

Lemma reachable_well_formed_witness :
  exists t0 t1 t2,
    hash_table_create [] = Done (Created t0) /\
    hash_table_insert [] t0 (Some key_a) 1 = Done (0, t1, []) /\
    hash_table_remove t1 (Some key_b) = Done (t2, []) /\
    reachable t2 /\ (resize_threshold t2 < 1)%Q /\
    (size t2 = length (entries (slots t2)) /\ length (slots t2) = capacity t2).
Proof.
  eexists _, _, _. split; [reflexivity|].
  match goal with
  | |- ?A /\ ?B /\ _ =>
      assert (H1 : A) by (vm_compute; reflexivity);
      assert (H2 : B) by (vm_compute; reflexivity);
      split; [exact H1|]; split; [exact H2|]
  end.
  match goal with
  | |- reachable ?T /\ (?Q < 1)%Q /\ _ =>
      assert (Hr : reachable T);
      [eapply reach_remove; [|exact H2]; eapply reach_insert; [|exact H1];
       apply (reach_create [] HASH_TABLE_DEFAULT_INITIAL_CAPACITY
                HASH_TABLE_DEFAULT_RESIZE_THRESHOLD HASH_TABLE_DEFAULT_RESIZE_FACTOR false);
       vm_compute; reflexivity|];
      assert (Hq : (Q < 1)%Q) by (vm_compute; reflexivity)
  end.
  split; [exact Hr|]. split; [exact Hq|]. exact (reachable_well_formed _ Hr Hq).
Defined.

(** After a clear, a get of any key returns NULL, [size] is 0, the
    capacity is kept and no entry is left; the clear frees the key and
    releases the value of each stored entry once, in slot order. *)
Theorem clear_empties_table (t : hash_table) (k : bytes) :
  0 < capacity t ->
  hash_table_get (fst (hash_table_clear t)) (Some k) = Done NULL /\
  size (fst (hash_table_clear t)) = 0 /\
  capacity (fst (hash_table_clear t)) = capacity t /\
  entries (slots (fst (hash_table_clear t))) = [] /\
  snd (hash_table_clear t) =
    flat_map (fun e => [FreeKey (e_key e); release t (e_value e)]) (entries (slots t)).
Proof.
  intros Hc. rewrite clear_spec. simpl.
  split; [|split; [reflexivity|split; [reflexivity|split; [apply entries_replicate_none|
                                                          reflexivity]]]].
  apply get_absent; [exact Hc|]. simpl.
  intros i e Hi. apply lookup_replicate in Hi as [Hi _]. discriminate.
Qed.

Lemma clear_empties_table_witness :
  exists t0 t1 t2,
    hash_table_create [] = Done (Created t0) /\ run_insert t0 key_a 1 = Done t1 /\
    run_insert t1 key_b 2 = Done t2 /\ 0 < capacity t2 /\
    (hash_table_get (fst (hash_table_clear t2)) (Some key_a) = Done NULL /\
     size (fst (hash_table_clear t2)) = 0 /\
     capacity (fst (hash_table_clear t2)) = capacity t2 /\
     entries (slots (fst (hash_table_clear t2))) = [] /\
     snd (hash_table_clear t2) =
       flat_map (fun e => [FreeKey (e_key e); release t2 (e_value e)]) (entries (slots t2))).
Proof.
  eexists _, _, _. split; [reflexivity|].
  split; [vm_compute; reflexivity|]. split; [vm_compute; reflexivity|].
  match goal with
  | |- ?A /\ _ =>
      assert (H : A) by (vm_compute; lia);
      split; [exact H|exact (clear_empties_table _ _ H)]
  end.
Defined.

(** Destroy releases every stored value exactly once, in slot order,
    through the destructor if the table has one and [free] otherwise, and
    frees each key just before its value; it releases nothing else. *)
Theorem destroy_releases_each_value (t : hash_table) :
  hash_table_destroy t =
    flat_map (fun e => [FreeKey (e_key e); release t (e_value e)]) (entries (slots t)) /\
  released (hash_table_destroy t) = map e_value (entries (slots t)).
Proof.
  unfold hash_table_destroy. rewrite clear_spec. simpl. split; [reflexivity|].
  apply released_flat_map.
Qed.

(** insert_copy on failure: when the copy cannot be allocated nothing
    happens; otherwise the failed insert is followed by a [free] (never the
    destructor) of the copy, and by no other release. *)
Theorem insert_copy_failure_frees_copy (o : alloc_oracle) (t : hash_table) (k : bytes)
    (value : bytes) (value_copy : ptr) (rc : nat) (t' : hash_table) (ev : list event) :
  hash_table_insert_copy o t (Some k) (Some value) value_copy = Done (rc, t', ev) ->
  rc <> 0 ->
  (t' = t /\ ev = []) \/ ev = [ReleaseValue value_copy false].
Proof.
  unfold hash_table_insert_copy. destruct (alloc o) as [[|] o1]; cbn [negb].
  - destruct (hash_table_insert o1 t (Some k) value_copy) as [[[r t1] ev1]|] eqn:Hi;
      cbn [obind]; [|intros H; discriminate H].
    destruct r as [|r]; simpl; intros H; injection H as <- <- <-; [lia|].
    intros _. right. rewrite (insert_failure_events _ _ _ _ _ _ _ Hi ltac:(lia)).
    reflexivity.
  - intros H. injection H as <- <- <-. left. auto.
Qed.

Lemma insert_copy_failure_frees_copy_witness :
  exists t0 t',
    hash_table_create [] = Done (Created t0) /\
    hash_table_insert_copy [true; false] t0 (Some key_a) (Some [Byte.x01]) 7 =
      Done (1, t', [ReleaseValue 7 false]) /\ 1 <> 0 /\
    ((t' = t0 /\ [ReleaseValue 7 false] = []) \/
     [ReleaseValue 7 false] = [ReleaseValue (7 : ptr) false]).
Proof.
  eexists _, _. split; [reflexivity|].
  match goal with
  | |- ?A /\ _ =>
      assert (H : A) by (vm_compute; reflexivity);
      split; [exact H|]; split; [lia|exact (insert_copy_failure_frees_copy _ _ _ _ _ _ _ _ H ltac:(lia))]
  end.
Defined.

(** insert_copy, then get: after a successful insert_copy of [k], a get of
    [k] returns the address of the copy. *)
Theorem insert_copy_then_get (o : alloc_oracle) (t : hash_table) (k : bytes)
    (value : bytes) (value_copy : ptr) (t' : hash_table) (ev : list event) :
  length (slots t) = capacity t ->
  hash_table_insert_copy o t (Some k) (Some value) value_copy = Done (0, t', ev) ->
  hash_table_get t' (Some k) = Done value_copy.
Proof.
  intros Hlen. unfold hash_table_insert_copy. destruct (alloc o) as [[|] o1]; cbn [negb];
    [|intros H; discriminate H].
  destruct (hash_table_insert o1 t (Some k) value_copy) as [[[r t1] ev1]|] eqn:Hi;
    cbn [obind]; [|intros H; discriminate H].
  destruct r as [|r]; simpl; intros H; [injection H as <- _|discriminate H].
  exact (insert_get_spec _ _ _ _ _ _ Hlen Hi).
Qed.

Lemma insert_copy_then_get_witness :
  exists t0 t' ev,
    hash_table_create [] = Done (Created t0) /\ length (slots t0) = capacity t0 /\
    hash_table_insert_copy [] t0 (Some key_a) (Some [Byte.x01]) 7 = Done (0, t', ev) /\
    hash_table_get t' (Some key_a) = Done 7%N.
Proof.
  eexists _, _, _. split; [reflexivity|].
  match goal with
  | |- ?A /\ ?B /\ _ =>
      assert (H1 : A) by (vm_compute; reflexivity);
      assert (H2 : B) by (vm_compute; reflexivity);
      split; [exact H1|]; split; [exact H2|];
      exact (insert_copy_then_get _ _ _ _ _ _ _ H1 H2)
  end.
Defined.

(** ht_strdup: for a NUL-terminated [s], a successful copy is the
    characters of [s] before its first NUL (none of them NUL) followed by
    one NUL; it has the same [strlen] and is the same string key as [s]. *)
Theorem strdup_copy (o : alloc_oracle) (s c : bytes) :
  In Byte.x00 s -> ht_strdup o s = Some c ->
  c = firstn (strlen s) s ++ [Byte.x00] /\
  Forall (fun b => b <> Byte.x00) (firstn (strlen s) s) /\
  strlen c = strlen s /\ string_key c = string_key s.
Proof.
  intros Hin. unfold ht_strdup. destruct (alloc o) as [[|] o1]; intros H; [|discriminate].
  injection H as <-. split; [apply firstn_strlen_terminated, Hin|].
  split; [apply strlen_no_nul|]. split; [apply strlen_firstn|apply string_key_idem].
Qed.

Lemma strdup_copy_witness :
  exists c,
    In Byte.x00 [Byte.x61; Byte.x62; Byte.x00; Byte.x63] /\
    ht_strdup [] [Byte.x61; Byte.x62; Byte.x00; Byte.x63] = Some c /\
    (c = firstn (strlen [Byte.x61; Byte.x62; Byte.x00; Byte.x63])
               [Byte.x61; Byte.x62; Byte.x00; Byte.x63] ++ [Byte.x00] /\
     Forall (fun b => b <> Byte.x00)
       (firstn (strlen [Byte.x61; Byte.x62; Byte.x00; Byte.x63])
               [Byte.x61; Byte.x62; Byte.x00; Byte.x63]) /\
     strlen c = strlen [Byte.x61; Byte.x62; Byte.x00; Byte.x63] /\
     string_key c = string_key [Byte.x61; Byte.x62; Byte.x00; Byte.x63]).
Proof.
  eexists.
  assert (Hin : In Byte.x00 [Byte.x61; Byte.x62; Byte.x00; Byte.x63]) by (simpl; tauto).
  split; [exact Hin|].
  match goal with
  | |- ?A /\ _ =>
      assert (H : A) by (vm_compute; reflexivity);
      split; [exact H|exact (strdup_copy _ _ _ Hin H)]
  end.
Defined.

(** The string wrappers: after a successful insert_string of [s], a
    get_string of any string with the same characters up to the NUL
    returns the value, and contains_string reports whether it is
    non-NULL. *)
Theorem insert_string_then_get_string (o : alloc_oracle) (t : hash_table) (s s' : bytes)
    (v : ptr) (t' : hash_table) (ev : list event) :
  In Byte.x00 s -> In Byte.x00 s' ->
  length (slots t) = capacity t -> string_key s' = string_key s ->
  hash_table_insert_string o t (Some s) v = Done (0, t', ev) ->
  hash_table_get_string t' (Some s') = Done v /\
  hash_table_contains_string t' (Some s') = Done (if N.eqb v NULL then 0 else 1).
Proof.
  intros _ _ Hlen Hk H. simpl in H.
  pose proof (insert_get_spec _ _ _ _ _ _ Hlen H) as Hg.
  unfold hash_table_get_string, hash_table_contains_string, hash_table_contains.
  rewrite Hk, Hg. split; reflexivity.
Qed.

Lemma insert_string_then_get_string_witness :
  exists t0 t' ev,
    hash_table_create [] = Done (Created t0) /\
    In Byte.x00 [Byte.x61; Byte.x00] /\ In Byte.x00 [Byte.x61; Byte.x00; Byte.x7a] /\
    length (slots t0) = capacity t0 /\
    string_key [Byte.x61; Byte.x00; Byte.x7a] = string_key [Byte.x61; Byte.x00] /\
    hash_table_insert_string [] t0 (Some [Byte.x61; Byte.x00]) 5 = Done (0, t', ev) /\
    (hash_table_get_string t' (Some [Byte.x61; Byte.x00; Byte.x7a]) = Done 5%N /\
     hash_table_contains_string t' (Some [Byte.x61; Byte.x00; Byte.x7a]) =
       Done (if N.eqb 5 NULL then 0 else 1)).
Proof.
  eexists _, _, _. split; [reflexivity|].
  assert (Hs : In Byte.x00 [Byte.x61; Byte.x00]) by (simpl; tauto).
  assert (Hs' : In Byte.x00 [Byte.x61; Byte.x00; Byte.x7a]) by (simpl; tauto).
  split; [exact Hs|]. split; [exact Hs'|].
  match goal with
  | |- ?A /\ ?B /\ ?C /\ _ =>
      assert (H1 : A) by (vm_compute; reflexivity);
      assert (H2 : B) by (vm_compute; reflexivity);
      assert (H3 : C) by (vm_compute; reflexivity);
      split; [exact H1|]; split; [exact H2|]; split; [exact H3|];
      exact (insert_string_then_get_string _ _ _ _ _ _ _ Hs Hs' H1 H2 H3)
  end.
Defined.

(** The string wrappers: after a remove_string of [s], get_string and
    contains_string of any string with the same characters up to the NUL
    return NULL and 0. *)
Theorem remove_string_then_contains_string (t : hash_table) (s s' : bytes)
    (t' : hash_table) (ev : list event) :
  In Byte.x00 s -> In Byte.x00 s' -> string_key s' = string_key s ->
  hash_table_remove_string t (Some s) = Done (t', ev) ->
  hash_table_get_string t' (Some s') = Done NULL /\
  hash_table_contains_string t' (Some s') = Done 0.
Proof.
  intros _ _ Hk H. simpl in H. pose proof (remove_get_spec _ _ _ _ H) as Hg.
  unfold hash_table_get_string, hash_table_contains_string, hash_table_contains.
  rewrite Hk, Hg. split; reflexivity.
Qed.

Lemma remove_string_then_contains_string_witness :
  exists t0 t1 t' ev,
    hash_table_create [] = Done (Created t0) /\
    run_insert t0 [Byte.x61; Byte.x00] 5 = Done t1 /\
    In Byte.x00 [Byte.x61; Byte.x00] /\ In Byte.x00 [Byte.x61; Byte.x00; Byte.x7a] /\
    string_key [Byte.x61; Byte.x00; Byte.x7a] = string_key [Byte.x61; Byte.x00] /\
    hash_table_remove_string t1 (Some [Byte.x61; Byte.x00]) = Done (t', ev) /\
    (hash_table_get_string t' (Some [Byte.x61; Byte.x00; Byte.x7a]) = Done NULL /\
     hash_table_contains_string t' (Some [Byte.x61; Byte.x00; Byte.x7a]) = Done 0).
Proof.
  eexists _, _, _, _. split; [reflexivity|]. split; [vm_compute; reflexivity|].
  assert (Hs : In Byte.x00 [Byte.x61; Byte.x00]) by (simpl; tauto).
  assert (Hs' : In Byte.x00 [Byte.x61; Byte.x00; Byte.x7a]) by (simpl; tauto).
  split; [exact Hs|]. split; [exact Hs'|].
  match goal with
  | |- ?A /\ ?B /\ _ =>
      assert (H1 : A) by (vm_compute; reflexivity);
      assert (H2 : B) by (vm_compute; reflexivity);
      split; [exact H1|]; split; [exact H2|];
      exact (remove_string_then_contains_string _ _ _ _ _ Hs Hs' H1 H2)
  end.
Defined.

(** With a capacity below [2^24] (which converts to float exactly) and a
    resize factor in [[0, 1]], once the load check asks for a resize every
    insert fails: [(size_t)(capacity * factor)] is not larger than the
    capacity, the resize refuses, and insert returns 1 with the table
    unchanged. *)
Theorem insert_refused_when_factor_le_one (o : alloc_oracle) (t : hash_table) (k : bytes)
    (v : ptr) :
  (Z.of_nat (capacity t) < 2 ^ 24)%Z ->
  (0 <= resize_factor t)%Q -> (resize_factor t <= 1)%Q ->
  load_exceeds (size t) (capacity t) (resize_threshold t) = true ->
  hash_table_insert o t (Some k) v = Done (1, t, []).
Proof.
  intros Hc Hf0 Hf1 Hl.
  destruct (grow_le_capacity _ _ Hc Hf0 Hf1) as (n & Hg & Hn).
  apply (insert_resize_failure o t k v 1 t o); [exact Hl| |lia].
  rewrite Hg. cbn [obind]. unfold hash_table_resize.
  rewrite (proj2 (Nat.leb_le _ _) Hn). reflexivity.
Qed.

Lemma insert_refused_when_factor_le_one_witness :
  exists t0 t1 t2,
    hash_table_create_with_parameters [] 4 (1 # 2) 1 = Done (Created t0) /\
    run_insert t0 key_a 1 = Done t1 /\ run_insert t1 key_b 2 = Done t2 /\
    (Z.of_nat (capacity t2) < 2 ^ 24)%Z /\
    (0 <= resize_factor t2)%Q /\ (resize_factor t2 <= 1)%Q /\
    load_exceeds (size t2) (capacity t2) (resize_threshold t2) = true /\
    hash_table_insert [] t2 (Some key_c) 3 = Done (1, t2, []).
Proof.
  eexists _, _, _. split; [reflexivity|].
  split; [vm_compute; reflexivity|]. split; [vm_compute; reflexivity|].
  match goal with
  | |- ?A /\ ?B /\ ?C /\ ?D /\ _ =>
      assert (H0 : A) by (vm_compute; reflexivity);
      assert (H1 : B) by (apply Qle_bool_iff; vm_compute; reflexivity);
      assert (H2 : C) by (apply Qle_bool_iff; vm_compute; reflexivity);
      assert (H3 : D) by (vm_compute; reflexivity);
      split; [exact H0|]; split; [exact H1|]; split; [exact H2|]; split; [exact H3|];
      exact (insert_refused_when_factor_le_one _ _ _ _ H0 H1 H2 H3)
  end.
Defined.

(** In a full table (every slot occupied), when the load check lets an
    insert of a key no entry holds through and the key copy is allocated,
    the probe gives up after
    [capacity] steps and insert writes the new entry over an occupied slot,
    increments [size] and frees nothing: the entry that was there is
    dropped without its key or value being released.  (With a threshold
    below 1 the check always fires on a full table, see
    [load_exceeds_false_room]; with a threshold of 1 it lets the insert
    through once [(float)(size + 1)] rounds to [(float)capacity], as for a
    full table of capacity [2^24], see [load_check_full_2_24].) *)
Theorem full_table_insert_overwrites (o : alloc_oracle) (o' : alloc_oracle)
    (t : hash_table) (k : bytes) (v : ptr) :
  (forall p, p < capacity t -> exists e, slots t !! p = Some (Some e)) ->
  (forall e, In e (entries (slots t)) -> e_key e <> k) ->
  load_exceeds (size t) (capacity t) (resize_threshold t) = false ->
  alloc o = (true, o') ->
  exists i e, slots t !! i = Some (Some e) /\
    hash_table_insert o t (Some k) v =
    Done (0, set_slots_size t (<[i := Some (mk_entry k v)]> (slots t)) (S (size t)), []).
Proof. apply full_table_insert_spec. Qed.

Lemma full_table_insert_overwrites_witness :
  exists t0 t1,
    hash_table_create_with_parameters [] 1 2 2 = Done (Created t0) /\
    run_insert t0 key_a 1 = Done t1 /\
    (forall p, p < capacity t1 -> exists e, slots t1 !! p = Some (Some e)) /\
    (forall e, In e (entries (slots t1)) -> e_key e <> key_b) /\
    load_exceeds (size t1) (capacity t1) (resize_threshold t1) = false /\
    alloc [] = (true, []) /\
    exists i e, slots t1 !! i = Some (Some e) /\
      hash_table_insert [] t1 (Some key_b) 2 =
      Done (0, set_slots_size t1 (<[i := Some (mk_entry key_b 2)]> (slots t1)) (S (size t1)),
            []).
Proof.
  eexists _, _. split; [reflexivity|]. split; [vm_compute; reflexivity|].
  match goal with
  | |- ?A /\ ?B /\ ?C /\ ?D /\ _ =>
      assert (H1 : A) by (simpl; intros p Hp; destruct p; [eexists; reflexivity|lia]);
      assert (H2 : B) by (simpl; intros e [<-|[]]; discriminate);
      assert (H3 : C) by (vm_compute; reflexivity);
      assert (H4 : D) by reflexivity;
      split; [exact H1|]; split; [exact H2|]; split; [exact H3|]; split; [exact H4|];
      exact (full_table_insert_overwrites _ _ _ _ _ H1 H2 H3 H4)
  end.
Defined.
